(** * docs-comparator-next: the PDF comparison pipeline of [DiffProcessor.tsx]

    A shallow embedding of the text extraction, the word/line diff
    post-processing, the segment-to-rectangle mapping and the annotation
    renderer, followed by the properties the specification states about
    them.

    Conventions.
    - A JavaScript string is the list of its UTF-16 code units ([list N]);
      [String.length] of the source is [strlen].
    - Character offsets ([start], [end], [pos2]) are integers ([Z]).
    - Page geometry (JavaScript numbers holding lengths in points) is taken
      in exact rational arithmetic ([Q]).
    - [diff.diffWords] / [diff.diffLines] (package [diff]) and the PDF
      libraries are not part of the repository: the diff functions are
      parameters, the PDF documents are records holding what the code
      reads from them. Where a property depends on what the word diff
      returns, it is stated for the word diff as the specification
      describes it ([specDiffWords]); what the font of the differences
      document can encode is the table [winAnsi]. *)

From Stdlib Require Import String Ascii.
From Stdlib Require Import List ZArith NArith QArith Qminmax Qabs.
From Stdlib Require Import Lia Lqa Bool.
Import ListNotations.

Local Open Scope Z_scope.

(* ================================================================= *)
(** ** JavaScript strings *)

Definition jsstring : Type := list N.

(** An ASCII literal as a JavaScript string. *)
Definition lit (s : string) : jsstring :=
  map N_of_ascii (list_ascii_of_string s).

(** [s.length] *)
Definition strlen (s : jsstring) : Z := Z.of_nat (length s).

Definition SPACE : N := 32%N.
Definition LF : N := 10%N.

(** [xs.join(sep)] *)
Fixpoint join (sep : jsstring) (xs : list jsstring) : jsstring :=
  match xs with
  | [] => []
  | [x] => x
  | x :: rest => x ++ sep ++ join sep rest
  end.

(* ================================================================= *)
(** ** The document as the two PDF libraries present it *)

(** The six entries of a pdf.js text transform. *)
Record Transform : Type := mkTransform {
  t0 : Q; t1 : Q; t2 : Q; t3 : Q; t4 : Q; t5 : Q
}.

(** An entry of [textContent.items]; every property may be missing. *)
Record TextItem : Type := mkTextItem {
  item_str : option jsstring;
  item_transform : option Transform;
  item_width : option Q;
  item_height : option Q
}.

(** One page of the uploaded file: its pdf-lib size, its pdf.js viewport
    at scale 1, its text items and its content stream. *)
Record SrcPage : Type := mkSrcPage {
  page_width : Q;
  page_height : Q;
  viewport_width : Q;
  viewport_height : Q;
  page_items : list TextItem;
  page_content : list N
}.

Definition PdfFile : Type := list SrcPage.

(** [it.str || ""]; [Array.prototype.join] renders a missing entry the
    same way. *)
Definition str_or_empty (it : TextItem) : jsstring :=
  match item_str it with
  | Some s => s
  | None => []
  end.

(* ================================================================= *)
(** ** [extractTextLocalFallback] *)

Definition pageText (p : SrcPage) : jsstring :=
  join [SPACE] (map str_or_empty (page_items p)).

Definition extractTextLocalFallback (file : PdfFile) : jsstring :=
  fold_left (fun fullText p => fullText ++ (pageText p ++ [LF; LF])) file [].

(* ================================================================= *)
(** ** [collectSecondTextLayout] *)

Record TextItemBox : Type := mkTextItemBox {
  start : Z;
  end_ : Z;
  pageIndex : nat;
  x : Q;
  y : Q;
  width : Q;
  height : Q
}.

Record Layout : Type := mkLayout {
  items : list TextItemBox;
  text : jsstring;
  pageHeights : list Q;
  pageWidths : list Q
}.

(** [transform ? Math.abs(transform[3] || 0) : it.height || 10] *)
Definition hCanvas (it : TextItem) : Q :=
  match item_transform it with
  | Some t => Qabs (t3 t)
  | None =>
      match item_height it with
      | Some h => if Qeq_bool h 0 then 10%Q else h
      | None => 10%Q
      end
  end.

(** [typeof it.width === "number" ? it.width
     : Math.abs(transform ? transform[0] || 0 : 0)] *)
Definition wCanvas (it : TextItem) : Q :=
  match item_width it with
  | Some w => w
  | None =>
      match item_transform it with
      | Some t => Qabs (t0 t)
      | None => Qabs 0
      end
  end.

Definition tx (it : TextItem) : Q :=
  match item_transform it with Some t => t4 t | None => 0%Q end.

Definition ty (it : TextItem) : Q :=
  match item_transform it with Some t => t5 t | None => 0%Q end.

(** The flip of the extractor:
    [yBottomPt = Math.max(0, height - (yTopPt + hPt))]. *)
Definition yBottomPt (pheight yTopPt hPt : Q) : Q :=
  Qmax 0 (pheight - (yTopPt + hPt)).

(** Body of [for (const it of raw)]. *)
Definition pushItem (pidx : nat) (pwidth pheight rx ry : Q)
    (acc : Layout) (it : TextItem) : Layout :=
  let str := str_or_empty it in
  let start := strlen (text acc) in
  let assembled := text acc ++ (str ++ [SPACE]) in
  let end_ := strlen assembled in
  let xPt := (tx it * rx)%Q in
  let yTopPt := (ty it * ry)%Q in
  let hPt := (hCanvas it * ry)%Q in
  let wPt := Qmax 1 (wCanvas it * rx) in
  {| items := items acc ++
       [ {| start := start; end_ := end_; pageIndex := pidx;
            x := xPt; y := yBottomPt pheight yTopPt hPt;
            width := wPt; height := hPt |} ];
     text := assembled;
     pageHeights := pageHeights acc;
     pageWidths := pageWidths acc |}.

(** Body of [for (let i = 1; i <= pdf.numPages; i++)], with
    [pageIndex = i - 1]. *)
Definition collectPage (acc : Layout) (ip : nat * SrcPage) : Layout :=
  let (pidx, page) := ip in
  let pwidth := page_width page in
  let pheight := page_height page in
  let acc1 := {| items := items acc; text := text acc;
                 pageHeights := pageHeights acc ++ [pheight];
                 pageWidths := pageWidths acc ++ [pwidth] |} in
  let rx := (pwidth / viewport_width page)%Q in
  let ry := (pheight / viewport_height page)%Q in
  let acc2 :=
    match page_items page with
    | [] => acc1
    | raw => fold_left (pushItem pidx pwidth pheight rx ry) raw acc1
    end in
  {| items := items acc2; text := text acc2 ++ [LF; LF];
     pageHeights := pageHeights acc2; pageWidths := pageWidths acc2 |}.

Definition indexed {A : Type} (l : list A) : list (nat * A) :=
  combine (seq 0 (length l)) l.

Definition emptyLayout : Layout :=
  {| items := []; text := []; pageHeights := []; pageWidths := [] |}.

Definition collectSecondTextLayout (file : PdfFile) : Layout :=
  fold_left collectPage (indexed file) emptyLayout.

(* ================================================================= *)
(** ** [computeAddedAndModifiedSegments] *)

(** An entry of the array returned by [diff.diffWords] / [diff.diffLines]. *)
Record Change : Type := mkChange {
  added : bool;
  removed : bool;
  value : jsstring
}.

Inductive SegKind : Type := KAdded | KModified.

Record Segment : Type := mkSegment {
  seg_start : Z;
  seg_end : Z;
  kind : SegKind
}.

(** [parts[i]]: [undefined] outside the array, also for [i = -1]. *)
Definition at_index {A : Type} (l : list A) (i : Z) : option A :=
  if i <? 0 then None else nth_error l (Z.to_nat i).

(** [q && q.removed] as a condition. *)
Definition and_removed (q : option Change) : bool :=
  match q with
  | Some c => removed c
  | None => false
  end.

Record SegAcc : Type := mkSegAcc {
  segments : list Segment;
  pos2 : Z
}.

(** Body of [for (let i = 0; i < parts.length; i++)]. *)
Definition segStep (parts : list Change) (acc : SegAcc) (i : Z) : SegAcc :=
  match at_index parts i with
  | None => acc
  | Some p =>
      if added p then
        let start := pos2 acc in
        let end_ := pos2 acc + strlen (value p) in
        let prev := at_index parts (i - 1) in
        let next := at_index parts (i + 1) in
        let modified := and_removed prev || and_removed next in
        {| segments := segments acc ++
             [ {| seg_start := start; seg_end := end_;
                  kind := if modified then KModified else KAdded |} ];
           pos2 := end_ |}
      else if removed p then acc
      else {| segments := segments acc;
              pos2 := pos2 acc + strlen (value p) |}
  end.

Definition indices {A : Type} (l : list A) : list Z :=
  map Z.of_nat (seq 0 (length l)).

Definition segmentsOfParts (parts : list Change) : list Segment :=
  segments
    (fold_left (segStep parts) (indices parts)
       {| segments := []; pos2 := 0 |}).

Definition computeAddedAndModifiedSegments
    (diffWords : jsstring -> jsstring -> list Change)
    (t1 t2 : jsstring) : list Segment :=
  segmentsOfParts (diffWords t1 t2).

(* ================================================================= *)
(** ** [createAnnotatedSecondPdf] *)

Record Color : Type := rgb { red : Q; green : Q; blue : Q }.

(** The options object handed to [page.drawRectangle]. *)
Record Rect : Type := mkRect {
  rect_x : Q;
  rect_y : Q;
  rect_width : Q;
  rect_height : Q;
  rect_color : Color;
  rect_opacity : Q;
  rect_borderColor : Color;
  rect_borderOpacity : Q
}.

(** A pdf-lib page: its size, the content it was loaded with and the
    rectangles drawn on top of it, in drawing order. *)
Record PDFPage : Type := mkPDFPage {
  size_width : Q;
  size_height : Q;
  content : list N;
  drawn : list Rect
}.

Definition PDFDocument : Type := list PDFPage.

(** [PDFDocument.load(bytes)] *)
Definition load (file : PdfFile) : PDFDocument :=
  map (fun p => {| size_width := page_width p;
                   size_height := page_height p;
                   content := page_content p;
                   drawn := [] |}) file.

(** [PDFDocument.create()] *)
Definition create : PDFDocument := [].

(** [doc.getPageIndices()] *)
Definition getPageIndices (doc : PDFDocument) : list nat :=
  seq 0 (length doc).

(** [outDoc.copyPages(inDoc, idxs)]: a copy of each listed page; an index
    outside the document is an error. *)
Fixpoint copyPages (inDoc : PDFDocument) (idxs : list nat)
  : option (list PDFPage) :=
  match idxs with
  | [] => Some []
  | i :: rest =>
      match nth_error inDoc i, copyPages inDoc rest with
      | Some p, Some ps => Some (p :: ps)
      | _, _ => None
      end
  end.

(** [doc.addPage(p)] *)
Definition addPage (doc : PDFDocument) (p : PDFPage) : PDFDocument :=
  doc ++ [p].

(** [page.drawRectangle(opts)] *)
Definition drawRectangle (page : PDFPage) (opts : Rect) : PDFPage :=
  {| size_width := size_width page; size_height := size_height page;
     content := content page; drawn := drawn page ++ [opts] |}.

(** The page object at [idx] replaced by its updated state. *)
Fixpoint setPage (doc : PDFDocument) (idx : nat) (p : PDFPage)
  : PDFDocument :=
  match doc, idx with
  | [], _ => []
  | _ :: rest, O => p :: rest
  | q :: rest, S idx' => q :: setPage rest idx' p
  end.

Definition segColor (seg : Segment) : Color :=
  match kind seg with
  | KModified => rgb 1 1 0
  | KAdded => rgb 0.9 0 0
  end.

Definition overlapStart (seg : Segment) (it : TextItemBox) : Z :=
  Z.max (seg_start seg) (start it).

Definition overlapEnd (seg : Segment) (it : TextItemBox) : Z :=
  Z.min (seg_end seg) (end_ it).

Definition fracStart (seg : Segment) (it : TextItemBox) : Q :=
  (inject_Z (overlapStart seg it - start it)
   / inject_Z (Z.max 1 (end_ it - start it)))%Q.

Definition fracWidth (seg : Segment) (it : TextItemBox) : Q :=
  (inject_Z (overlapEnd seg it - overlapStart seg it)
   / inject_Z (Z.max 1 (end_ it - start it)))%Q.

(** The rectangle computed for an overlapping pair, on a page of height
    [pageH]. *)
Definition highlightRect (seg : Segment) (it : TextItemBox) (pageH : Q)
  : Rect :=
  let rectX := (x it + width it * fracStart seg it)%Q in
  let rectW := (width it * fracWidth seg it)%Q in
  let rectYBottom := Qmax 0 (pageH - (y it + height it)) in
  let rectH := Qmax 2 (height it * 1.1) in
  {| rect_x := rectX; rect_y := rectYBottom;
     rect_width := rectW; rect_height := rectH;
     rect_color := segColor seg; rect_opacity := 0.25;
     rect_borderColor := segColor seg; rect_borderOpacity := 0.25 |}.

(** Body of [for (const it of layout.items)]; [None] is a thrown
    exception ([getPage] on a missing index). *)
Definition annotateItem (seg : Segment) (out : option PDFDocument)
    (it : TextItemBox) : option PDFDocument :=
  match out with
  | None => None
  | Some outDoc =>
      if overlapEnd seg it <=? overlapStart seg it then Some outDoc
      else
        match nth_error outDoc (pageIndex it) with
        | None => None
        | Some page =>
            let pageH := size_height page in
            Some (setPage outDoc (pageIndex it)
                    (drawRectangle page (highlightRect seg it pageH)))
        end
  end.

(** Body of [for (const seg of segments)]. *)
Definition annotateSegment (its : list TextItemBox)
    (out : option PDFDocument) (seg : Segment) : option PDFDocument :=
  fold_left (annotateItem seg) its out.

(** The two documents alive while annotating. *)
Record AnnotState : Type := mkAnnotState {
  inDoc : PDFDocument;
  outDoc : PDFDocument
}.

(** [createAnnotatedSecondPdf] from the computed segments on. *)
Definition annotate (segs : list Segment) (fileSecond : PdfFile)
  : option AnnotState :=
  let layout := collectSecondTextLayout fileSecond in
  let inDoc := load fileSecond in
  match copyPages inDoc (getPageIndices inDoc) with
  | None => None
  | Some srcPages =>
      let outDoc := fold_left addPage srcPages create in
      match fold_left (annotateSegment (items layout)) segs (Some outDoc) with
      | None => None
      | Some out => Some {| inDoc := inDoc; outDoc := out |}
      end
  end.

Definition createAnnotatedSecondPdf
    (diffWords : jsstring -> jsstring -> list Change)
    (text1 text2 : jsstring) (fileSecond : PdfFile) : option AnnotState :=
  annotate (computeAddedAndModifiedSegments diffWords text1 text2) fileSecond.

(* ================================================================= *)
(** ** [createLineDiff] *)

Inductive LineType : Type :=
  | unchanged
  | modified
  | added_line
  | removed_line.

Record DiffLine : Type := mkDiffLine {
  lineNumber1 : Z;
  lineNumber2 : Z;
  text1 : jsstring;
  text2 : jsstring;
  type : LineType
}.

(** [s.split(sep)] for a one-character separator. *)
Fixpoint split (sep : N) (s : jsstring) : list jsstring :=
  match s with
  | [] => [[]]
  | c :: rest =>
      if N.eqb c sep then [] :: split sep rest
      else
        match split sep rest with
        | [] => [[c]]
        | piece :: pieces => (c :: piece) :: pieces
        end
  end.

Record LineAcc : Type := mkLineAcc {
  result : list DiffLine;
  index1 : Z;
  index2 : Z
}.

(** [!s] on a string. *)
Definition is_empty (s : jsstring) : bool :=
  match s with [] => true | _ => false end.

(** [i === lines.length - 1 && !lines[i]] *)
Definition skipped (n : nat) (il : nat * jsstring) : bool :=
  (Z.of_nat (fst il) =? Z.of_nat n - 1) && is_empty (snd il).

Definition pushUnchanged (n : nat) (acc : LineAcc) (il : nat * jsstring)
  : LineAcc :=
  if skipped n il then acc
  else
    {| result := result acc ++
         [ {| lineNumber1 := index1 acc + 1; lineNumber2 := index2 acc + 1;
              text1 := snd il; text2 := snd il; type := unchanged |} ];
       index1 := index1 acc + 1;
       index2 := index2 acc + 1 |}.

Definition pushRemoved (n : nat) (acc : LineAcc) (il : nat * jsstring)
  : LineAcc :=
  if skipped n il then acc
  else
    {| result := result acc ++
         [ {| lineNumber1 := index1 acc + 1; lineNumber2 := -1;
              text1 := snd il; text2 := []; type := removed_line |} ];
       index1 := index1 acc + 1;
       index2 := index2 acc |}.

Definition pushAdded (n : nat) (acc : LineAcc) (il : nat * jsstring)
  : LineAcc :=
  if skipped n il then acc
  else
    {| result := result acc ++
         [ {| lineNumber1 := -1; lineNumber2 := index2 acc + 1;
              text1 := []; text2 := snd il; type := added_line |} ];
       index1 := index1 acc;
       index2 := index2 acc + 1 |}.

(** Body of [for (const part of differences)]. *)
Definition lineStep (acc : LineAcc) (part : Change) : LineAcc :=
  let lines := split LF (value part) in
  let n := length lines in
  if negb (added part) && negb (removed part) then
    fold_left (pushUnchanged n) (indexed lines) acc
  else if removed part then
    fold_left (pushRemoved n) (indexed lines) acc
  else if added part then
    fold_left (pushAdded n) (indexed lines) acc
  else acc.

Definition lineDiffOfParts (differences : list Change) : list DiffLine :=
  result
    (fold_left lineStep differences
       {| result := []; index1 := 0; index2 := 0 |}).

Definition createLineDiff
    (diffLines : jsstring -> jsstring -> list Change)
    (text1 text2 : jsstring) : list DiffLine :=
  lineDiffOfParts (diffLines text1 text2).

(* ================================================================= *)
(** ** [sanitizeTextForWinAnsi] *)

(** The character class from U+0080 to U+FFFF, matched per code unit
    (the pattern has no [u] flag). *)
Definition in_class (ch : N) : bool :=
  (0x80 <=? ch)%N && (ch <=? 0xFFFF)%N.

(** U+27A2, the arrowhead the replacer recognises. *)
Definition ARROWHEAD : N := 0x27A2%N.

(** The replacer callback. *)
Definition replacer (ch : N) : jsstring :=
  if (ch =? ARROWHEAD)%N then lit "-" else lit "?".

(** [s.replace(re, replacer)] with the global pattern over that class. *)
Fixpoint sanitizeTextForWinAnsi (s : jsstring) : jsstring :=
  match s with
  | [] => []
  | ch :: rest =>
      (if in_class ch then replacer ch else [ch])
      ++ sanitizeTextForWinAnsi rest
  end.

(* ================================================================= *)
(** ** Notions used to state the properties *)

(** *** Code points and their UTF-16 encoding *)

Definition utf16_of_code_point (cp : N) : jsstring :=
  if (cp <? 0x10000)%N then [cp]
  else
    let v := (cp - 0x10000)%N in
    [ (0xD800 + v / 0x400)%N; (0xDC00 + v mod 0x400)%N ].

Definition utf16 (cps : list N) : jsstring :=
  flat_map utf16_of_code_point cps.

(** The placeholder the sanitizer is described to put for one code point:
    a hyphen for the arrowhead, a question mark otherwise. *)
Definition placeholder (cp : N) : N :=
  if (cp =? ARROWHEAD)%N then 45%N else 63%N.

(** Unicode scalar values: up to U+10FFFF, surrogates excluded. *)
Definition is_code_point (cp : N) : bool :=
  (cp <=? 0x10FFFF)%N && negb ((0xD800 <=? cp)%N && (cp <=? 0xDFFF)%N).

(** What the sanitizer makes of one code unit. *)
Definition sanitized_code_unit (ch : N) : N :=
  if in_class ch then placeholder ch else ch.

(** *** The three kinds of diff part *)

Inductive PartKind : Type := PAdded | PRemoved | PUnchanged.

Definition part_kind (p : Change) : PartKind :=
  if added p then PAdded
  else if removed p then PRemoved
  else PUnchanged.

Definition is_removed_part (q : option Change) : bool :=
  match q with
  | Some p => match part_kind p with PRemoved => true | _ => false end
  | None => false
  end.

(** A part carries at most one of the two flags. *)
Definition one_flag (p : Change) : Prop :=
  added p && removed p = false.

(** The walk of the specification: one pass over the parts, [prev] the
    part just left behind, [pos2] the offset into the second text. *)
Fixpoint walk (prev : option Change) (pos2 : Z) (parts : list Change)
  : list Segment :=
  match parts with
  | [] => []
  | p :: rest =>
      let len := strlen (value p) in
      match part_kind p with
      | PAdded =>
          {| seg_start := pos2; seg_end := pos2 + len;
             kind := if is_removed_part prev
                        || is_removed_part (hd_error rest)
                     then KModified else KAdded |}
          :: walk (Some p) (pos2 + len) rest
      | PRemoved => walk (Some p) pos2 rest
      | PUnchanged => walk (Some p) (pos2 + len) rest
      end
  end.

(** *** The assembled text of the layout *)

(** What one item contributes to the assembled text of the layout. *)
Definition itemText (it : TextItem) : jsstring := str_or_empty it ++ [SPACE].

(** What one page contributes to the assembled text of the layout. *)
Definition layoutPageText (p : SrcPage) : jsstring :=
  concat (map itemText (page_items p)) ++ [LF; LF].

(** The last element of a list, if any. *)
Definition last_error {A : Type} (l : list A) : option A := hd_error (rev l).

(** *** Offset chains *)

(** [chained lo bs hi]: the runs [bs] lie between [lo] and [hi], each one
    non-empty and starting no earlier than its predecessor ends. *)
Fixpoint chained (lo : Z) (bs : list TextItemBox) (hi : Z) : Prop :=
  match bs with
  | [] => lo <= hi
  | b :: rest => lo <= start b /\ start b < end_ b /\ chained (end_ b) rest hi
  end.

(** The invariant of the collection loop: the runs collected so far form
    a chain that ends within the text assembled so far. *)
Definition offsets_ok (acc : Layout) : Prop :=
  chained 0 (items acc) (strlen (text acc)).


(** All text items of a file, in extraction order. *)
Definition allItems (file : PdfFile) : list TextItem :=
  flat_map page_items file.

(** Pages that hold at least one text item. *)
Definition nonEmptyPages (file : PdfFile) : nat :=
  length
    (filter
       (fun p => negb (match page_items p with [] => true | _ => false end))
       file).

(** All rectangles drawn on a document, page after page. *)
Definition allDrawn (doc : PDFDocument) : list Rect :=
  flat_map drawn doc.

(** *** What ends up on a page *)

(** The part of a page the renderer must leave alone. *)
Definition pageFrame (p : PDFPage) : Q * Q * list N :=
  (size_width p, size_height p, content p).

(** The segment and the run share at least one offset. *)
Definition overlapping (seg : Segment) (it : TextItemBox) : bool :=
  negb (overlapEnd seg it <=? overlapStart seg it).

(** The rectangles the pair [(seg, it)] puts on page [k] of height [h]. *)
Definition itemRects (seg : Segment) (it : TextItemBox) (k : nat) (h : Q)
  : list Rect :=
  if overlapping seg it && Nat.eqb (pageIndex it) k
  then [highlightRect seg it h] else [].

(** The rectangles all pairs put on page [k] of height [h], in drawing
    order. *)
Definition rectsFor (segs : list Segment) (its : list TextItemBox)
    (k : nat) (h : Q) : list Rect :=
  flat_map (fun seg => flat_map (fun it => itemRects seg it k h) its) segs.

(** [doc'] is [doc] with the rectangles [extra k h] appended to the
    drawing of each page [k] (of height [h]), and nothing else changed. *)
Definition drawnOnto (doc doc' : PDFDocument)
    (extra : nat -> Q -> list Rect) : Prop :=
  length doc' = length doc
  /\ forall k page,
       nth_error doc k = Some page ->
       exists page',
         nth_error doc' k = Some page'
         /\ pageFrame page' = pageFrame page
         /\ drawn page' = drawn page ++ extra k (size_height page).

(** *** Shape of the rows of the line diff *)

(** An unchanged row shows the same text on both sides; a removed row has
    nothing on side 2, an added row nothing on side 1; no case is left
    for a modified row. *)
Definition row_shape (r : DiffLine) : Prop :=
  match type r with
  | unchanged => text1 r = text2 r
  | modified => False
  | added_line => text1 r = [] /\ lineNumber1 r = -1
  | removed_line => text2 r = [] /\ lineNumber2 r = -1
  end.

(* ================================================================= *)
(** ** Example documents *)

(** A text item with only its string. *)
Definition plainItem (s : string) : TextItem :=
  {| item_str := Some (lit s); item_transform := None;
     item_width := None; item_height := None |}.

(** A 600 x 800 page whose viewport has the same size. *)
Definition pageOf (its : list TextItem) : SrcPage :=
  {| page_width := 600; page_height := 800;
     viewport_width := 600; viewport_height := 800;
     page_items := its; page_content := [] |}.

(** Two pages, the first reading "a", the second "b". *)
Definition twoPages : PdfFile :=
  [ pageOf [plainItem "a"]; pageOf [plainItem "b"] ].

(** Offset extents of the runs of a layout. *)
Definition extents (l : Layout) : list (Z * Z) :=
  map (fun b => (start b, end_ b)) (items l).

(** The parts of Scenario B: "Alpha " kept, "Beta" removed, "Gamma"
    added. *)
Definition partsB : list Change :=
  [ {| added := false; removed := false; value := lit "Alpha " |};
    {| added := false; removed := true; value := lit "Beta" |};
    {| added := true; removed := false; value := lit "Gamma" |} ].

(** The parts of Scenario A: "Hello " kept, "there " added, "world"
    kept. *)
Definition partsA : list Change :=
  [ {| added := false; removed := false; value := lit "Hello " |};
    {| added := true; removed := false; value := lit "there " |};
    {| added := false; removed := false; value := lit "world" |} ].

(** Scenario C: a run over offsets 100..106 and a segment over
    102..106. *)
Definition runC : TextItemBox :=
  {| start := 100; end_ := 106; pageIndex := 0;
     x := 50; y := 700; width := 60; height := 10 |}.

Definition segC : Segment :=
  {| seg_start := 102; seg_end := 106; kind := KAdded |}.

(** A one-page document, 600 x 800, with the single item "x" placed by
    its transform at (50, 100), 10 high and 20 wide. *)
Definition flipFile : PdfFile :=
  [ pageOf
      [ {| item_str := Some (lit "x");
           item_transform :=
             Some {| t0 := 12; t1 := 0; t2 := 0; t3 := 10;
                     t4 := 50; t5 := 100 |};
           item_width := Some 20%Q;
           item_height := None |} ] ].

(** A segment over the "x" of [flipFile]. *)
Definition flipSeg : Segment :=
  {| seg_start := 0; seg_end := 1; kind := KAdded |}.



(** The line diff of "a\n" against "b\n": one line removed, one line
    added in its place. *)
Definition replacedLine : list Change :=
  [ {| added := false; removed := true; value := [97; 10]%N |};
    {| added := true; removed := false; value := [98; 10]%N |} ].

(** "A", e with acute accent, the arrowhead, and U+1F600 as its two
    surrogates. *)
Definition mixedText : jsstring := [0x41; 0xE9; 0x27A2; 0xD83D; 0xDE00]%N.

(* ================================================================= *)
(** ** [escapeHtml] *)

(** [s.replace(/c/g, by)] for a one-character pattern [c]. *)
Fixpoint replaceAll (c : N) (by_ : jsstring) (s : jsstring) : jsstring :=
  match s with
  | [] => []
  | ch :: rest =>
      (if (ch =? c)%N then by_ else [ch]) ++ replaceAll c by_ rest
  end.

Definition AMP : N := 38%N.
Definition LT : N := 60%N.
Definition GT : N := 62%N.
Definition QUOT : N := 34%N.
Definition APOS : N := 39%N.

Definition escapeHtml (text : jsstring) : jsstring :=
  replaceAll APOS (lit "&#039;")
    (replaceAll QUOT (lit "&quot;")
       (replaceAll GT (lit "&gt;")
          (replaceAll LT (lit "&lt;")
             (replaceAll AMP (lit "&amp;") text)))).

(* ================================================================= *)
(** ** [highlightWordDifferences] *)

Record Highlighted : Type := mkHighlighted {
  html1 : jsstring;
  html2 : jsstring
}.

(** The template of a span of class [cls] around [inner]. *)
Definition span (cls : string) (inner : jsstring) : jsstring :=
  lit "<span class=" ++ [QUOT] ++ lit cls ++ [QUOT] ++ lit ">"
  ++ inner ++ lit "</span>".

(** Body of [for (const part of wordDiffs)]. *)
Definition highlightStep (acc : Highlighted) (part : Change) : Highlighted :=
  let escapedValue := escapeHtml (value part) in
  if removed part then
    {| html1 := html1 acc ++ span "removed-word" escapedValue;
       html2 := html2 acc |}
  else if added part then
    {| html1 := html1 acc;
       html2 := html2 acc ++ span "added-word" escapedValue |}
  else
    {| html1 := html1 acc ++ escapedValue;
       html2 := html2 acc ++ escapedValue |}.

Definition highlightParts (wordDiffs : list Change) : Highlighted :=
  fold_left highlightStep wordDiffs {| html1 := []; html2 := [] |}.

Definition highlightWordDifferences
    (diffWords : jsstring -> jsstring -> list Change)
    (text1 text2 : jsstring) : Highlighted :=
  highlightParts (diffWords text1 text2).

(* ================================================================= *)
(** ** Further notions used to state the properties *)

(** *** Escaping, one character at a time *)

Definition escapeChar (ch : N) : jsstring :=
  if (ch =? AMP)%N then lit "&amp;"
  else if (ch =? LT)%N then lit "&lt;"
  else if (ch =? GT)%N then lit "&gt;"
  else if (ch =? QUOT)%N then lit "&quot;"
  else if (ch =? APOS)%N then lit "&#039;"
  else [ch].

(** The five characters [escapeHtml] rewrites. *)
Definition is_special (ch : N) : bool :=
  (ch =? AMP)%N || (ch =? LT)%N || (ch =? GT)%N
  || (ch =? QUOT)%N || (ch =? APOS)%N.

(** The characters that could open or close markup or an attribute. *)
Definition is_markup (ch : N) : bool :=
  (ch =? LT)%N || (ch =? GT)%N || (ch =? QUOT)%N || (ch =? APOS)%N.

(** *** Parts and the two texts they describe *)

(** The part takes room in the second text: the segment loop advances
    [pos2] over it. *)
Definition inSecond (p : Change) : bool := added p || negb (removed p).

(** The part is shown on the left by the word highlighter. *)
Definition inFirst (p : Change) : bool := removed p || negb (added p).

(** [s.substring(a, b)] for [0 <= a <= b]. *)
Definition substring (s : jsstring) (a b : Z) : jsstring :=
  firstn (Z.to_nat (b - a)) (skipn (Z.to_nat a) s).

(** The segment loop as a recursion over the parts still to come. *)
Fixpoint scan (prev : option Change) (pos2 : Z) (parts : list Change)
  : list Segment :=
  match parts with
  | [] => []
  | p :: rest =>
      if added p then
        {| seg_start := pos2; seg_end := pos2 + strlen (value p);
           kind := if and_removed prev || and_removed (hd_error rest)
                   then KModified else KAdded |}
        :: scan (Some p) (pos2 + strlen (value p)) rest
      else if removed p then scan (Some p) pos2 rest
      else scan (Some p) (pos2 + strlen (value p)) rest
  end.

(** Segments in increasing order from [lo] on, none of negative
    length. *)
Fixpoint seg_chained (lo : Z) (segs : list Segment) : Prop :=
  match segs with
  | [] => True
  | s :: rest =>
      lo <= seg_start s /\ seg_start s <= seg_end s
      /\ seg_chained (seg_end s) rest
  end.

(** What one part contributes to the left and to the right column. *)
Definition leftHtml (p : Change) : jsstring :=
  if removed p then span "removed-word" (escapeHtml (value p))
  else if added p then []
  else escapeHtml (value p).

Definition rightHtml (p : Change) : jsstring :=
  if removed p then []
  else if added p then span "added-word" (escapeHtml (value p))
  else escapeHtml (value p).

(** How often the character [c] occurs in [s]. *)
Definition occurrences (c : N) (s : jsstring) : nat :=
  count_occ N.eq_dec s c.

(** *** Runs and the text they stand for *)

(** The run [b] lies within [text] and covers there the string of [it]
    followed by one space. *)
Definition run_ok (text : jsstring) (b : TextItemBox) (it : TextItem)
  : Prop :=
  0 <= start b /\ end_ b <= strlen text
  /\ substring text (start b) (end_ b) = itemText it.

(** The page index of every text item of a file, in extraction order. *)
Definition itemPages (file : PdfFile) : list nat :=
  flat_map (fun ip => repeat (fst ip) (length (page_items (snd ip))))
    (indexed file).

(** *** Pairs of a segment and a run *)

(** The rectangle [r] on a page of height [h] with index [k] is the
    highlight of a segment of [segs] and a run of [its] that overlap, the
    run lying on that page. *)
Definition highlight_of (segs : list Segment) (its : list TextItemBox)
    (k : nat) (h : Q) (r : Rect) : Prop :=
  exists seg it,
    In seg segs /\ In it its /\ pageIndex it = k
    /\ Z.min (seg_end seg) (end_ it) > Z.max (seg_start seg) (start it)
    /\ r = highlightRect seg it h.

(** The number of pairs of a segment and a run that overlap. *)
Definition overlappingPairs (segs : list Segment) (its : list TextItemBox)
  : nat :=
  list_sum
    (map (fun seg => length (filter (overlapping seg) its)) segs).

(** A run over offsets 100..106 as the layout would make it (width at
    least 1), and a segment that covers it entirely. *)
Definition coverSeg : Segment :=
  {| seg_start := 90; seg_end := 120; kind := KModified |}.

(** *** Rows and lines *)

(** The rows that show a line of the first (second) text. *)
Definition side1 (rows : list DiffLine) : list DiffLine :=
  filter (fun r => negb (lineNumber1 r =? -1)) rows.

Definition side2 (rows : list DiffLine) : list DiffLine :=
  filter (fun r => negb (lineNumber2 r =? -1)) rows.

(** The rows numbered by [f] (those where [f] is not -1) are numbered
    1, 2, 3, ... in order, and [idx] is the last number given. *)
Definition numbered (f : DiffLine -> Z) (rows : list DiffLine) (idx : Z)
  : Prop :=
  let shown := filter (fun r => negb (f r =? -1)) rows in
  idx = Z.of_nat (length shown)
  /\ map f shown = map Z.of_nat (seq 1 (length shown)).

(** Both counters number the rows of their side. *)
Definition counters_ok (acc : LineAcc) : Prop :=
  numbered lineNumber1 (result acc) (index1 acc)
  /\ numbered lineNumber2 (result acc) (index2 acc).

(** The text made of the lines [ls], each closed by a line feed, and of
    a last piece [tail] that is not closed. *)
Definition unlines (ls : list jsstring) (tail : jsstring) : jsstring :=
  concat (map (fun l => l ++ [LF]) ls) ++ tail.

(** The lines such a text shows: the closed lines, and the open piece
    unless it is empty. *)
Definition linesOf (ls : list jsstring) (tail : jsstring) : list jsstring :=
  ls ++ (if is_empty tail then [] else [tail]).

Definition lf_free (l : jsstring) : Prop :=
  Forall (fun c => c <> LF) l.

(** The text a row shows: that of the second side for an added row,
    that of the first side otherwise. *)
Definition rowText (r : DiffLine) : jsstring :=
  match type r with
  | added_line => text2 r
  | _ => text1 r
  end.

(** What a row shows: its kind and its text. *)
Definition rowView (r : DiffLine) : LineType * jsstring :=
  (type r, rowText r).

(** The kind of the rows a part gives rise to. *)
Definition partType (p : Change) : LineType :=
  if negb (added p) && negb (removed p) then unchanged
  else if removed p then removed_line
  else added_line.

(** A part together with the lines its value is made of. *)
Record PartLines : Type := mkPartLines {
  pl_part : Change;
  pl_lines : list jsstring;
  pl_tail : jsstring
}.

Definition pl_ok (pl : PartLines) : Prop :=
  value (pl_part pl) = unlines (pl_lines pl) (pl_tail pl)
  /\ Forall lf_free (pl_lines pl)
  /\ lf_free (pl_tail pl).

(** An unchanged part "a", blank line, "b", each line closed, followed by
    an added part "c" that is not closed. *)
Definition blankLineParts : list PartLines :=
  [ {| pl_part := {| added := false; removed := false;
                     value := [97; 10; 10; 98; 10]%N |};
       pl_lines := [[97%N]; []; [98%N]]; pl_tail := [] |};
    {| pl_part := {| added := true; removed := false; value := [99%N] |};
       pl_lines := []; pl_tail := [99%N] |} ].

(* ================================================================= *)
(** ** [createDiffPdf] *)

(** A call of [page.drawText(text, {x, y, size, font, color})]; the font
    is always the embedded Helvetica. *)
Record DrawText : Type := mkDrawText {
  dt_text : jsstring;
  dt_x : Q;
  dt_y : Q;
  dt_size : Q;
  dt_color : Color
}.

(** The document under construction: the pages left behind, the page
    [currentPage] points to (always the one added last) and the variable
    [yPosition]. *)
Record DiffPdf : Type := mkDiffPdf {
  donePages : list (list DrawText);
  currentPage : list DrawText;
  yPosition : Q
}.

Definition fontSize : Q := 12.
Definition lineHeight : Q := fontSize * 1.2.
Definition margin : Q := 50.

(** [page.getSize()] of a page added as [[595, 842]]. *)
Definition a4Width : Q := 595.
Definition a4Height : Q := 842.

Definition maxWidth : Q := a4Width - 2 * margin.

(** [a < b] on numbers. *)
Definition Qlt_bool (a b : Q) : bool := negb (Qle_bool b a).

(** [currentPage.drawText(text, {x, y: yPosition, size, font, color})] *)
Definition drawText (st : DiffPdf) (text : jsstring) (x size : Q)
    (color : Color) : DiffPdf :=
  {| donePages := donePages st;
     currentPage := currentPage st ++
       [ {| dt_text := text; dt_x := x; dt_y := yPosition st;
            dt_size := size; dt_color := color |} ];
     yPosition := yPosition st |}.

(** [yPosition -= d] *)
Definition moveDown (st : DiffPdf) (d : Q) : DiffPdf :=
  {| donePages := donePages st; currentPage := currentPage st;
     yPosition := yPosition st - d |}.

(** [if (yPosition < margin + 50) { currentPage = pdfDoc.addPage(...);
    yPosition = height - margin; }] *)
Definition breakPageIfLow (st : DiffPdf) : DiffPdf :=
  if Qlt_bool (yPosition st) (margin + 50) then
    {| donePages := donePages st ++ [currentPage st];
       currentPage := [];
       yPosition := a4Height - margin |}
  else st.

(** [let color = rgb(0, 0, 0); if (part.removed) color = rgb(0.8, 0, 0);
    if (part.added) color = rgb(0, 0.6, 0);] *)
Definition partColor (part : Change) : Color :=
  let color := rgb 0 0 0 in
  let color := if removed part then rgb 0.8 0 0 else color in
  let color := if added part then rgb 0 0.6 0 else color in
  color.

(** White space and line terminators, the characters [trim] strips. *)
Definition is_ws (c : N) : bool :=
  (c =? 9)%N || (c =? 10)%N || (c =? 11)%N || (c =? 12)%N || (c =? 13)%N
  || (c =? 32)%N || (c =? 0xA0)%N || (c =? 0x1680)%N
  || ((0x2000 <=? c)%N && (c <=? 0x200A)%N)
  || (c =? 0x2028)%N || (c =? 0x2029)%N || (c =? 0x202F)%N
  || (c =? 0x205F)%N || (c =? 0x3000)%N || (c =? 0xFEFF)%N.

(** [line.trim()] as a condition: some character is left. *)
Definition trim_nonempty (line : jsstring) : bool :=
  existsb (fun c => negb (is_ws c)) line.

(** Body of [for (const word of words)]; the state is the document and
    the variable [currentLine]. [font.widthOfTextAtSize] and [drawText]
    of pdf-lib throw on a text that the font cannot encode; the steps
    below are those of a run in which they return, which is every run
    over lines that are [encodable]. *)
Definition pdfWordStep (widthOfTextAtSize : jsstring -> Q -> Q)
    (part : Change) (acc : DiffPdf * jsstring) (word : jsstring)
  : DiffPdf * jsstring :=
  let (st, currentLine) := acc in
  let testLine :=
    currentLine ++ (if is_empty currentLine then [] else [SPACE]) ++ word in
  let textWidth :=
    widthOfTextAtSize (sanitizeTextForWinAnsi testLine) fontSize in
  if Qlt_bool maxWidth textWidth && negb (is_empty currentLine) then
    let st1 :=
      drawText st (sanitizeTextForWinAnsi currentLine) margin fontSize
        (partColor part) in
    let st2 := moveDown st1 lineHeight in
    (breakPageIfLow st2, word)
  else (st, testLine).

(** Body of [for (const line of lines)]. *)
Definition pdfLineStep (widthOfTextAtSize : jsstring -> Q -> Q)
    (part : Change) (st : DiffPdf) (line : jsstring) : DiffPdf :=
  if negb (trim_nonempty line) then st
  else
    let words := split SPACE line in
    let (st1, currentLine) :=
      fold_left (pdfWordStep widthOfTextAtSize part) words (st, []) in
    if negb (is_empty currentLine) then
      moveDown
        (drawText st1 (sanitizeTextForWinAnsi currentLine) margin fontSize
           (partColor part))
        lineHeight
    else st1.

(** Body of [for (const part of differences)]. *)
Definition pdfPartStep (widthOfTextAtSize : jsstring -> Q -> Q)
    (st : DiffPdf) (part : Change) : DiffPdf :=
  let st1 := breakPageIfLow st in
  let lines := filter trim_nonempty (split LF (value part)) in
  fold_left (pdfLineStep widthOfTextAtSize part) lines st1.

Definition E_ACUTE : N := 0xE9%N.
Definition BULLET : N := 0x2022%N.

(** The title and the legend, drawn before the differences. *)
Definition pdfHeader : DiffPdf :=
  let st := {| donePages := []; currentPage := [];
               yPosition := a4Height - margin |} in
  let st := drawText st
              (lit "Comparaison PDF - Diff" ++ [E_ACUTE] ++ lit "rences")
              margin 16 (rgb 0 0 0) in
  let st := moveDown st 30 in
  let st := drawText st (lit "L" ++ [E_ACUTE] ++ lit "gende:")
              margin 14 (rgb 0 0 0) in
  let st := moveDown st lineHeight in
  let st := drawText st
              ([BULLET] ++ lit " Texte supprim" ++ [E_ACUTE] ++ lit " (rouge)")
              (margin + 10) 10 (rgb 0.8 0 0) in
  let st := moveDown st (lineHeight * 0.8) in
  let st := drawText st
              ([BULLET] ++ lit " Texte ajout" ++ [E_ACUTE] ++ lit " (vert)")
              (margin + 10) 10 (rgb 0 0.6 0) in
  moveDown st 30.

(** The pages of the document, in order. *)
Definition pdfPages (st : DiffPdf) : list (list DrawText) :=
  donePages st ++ [currentPage st].

(** [createDiffPdf], up to the pages that are saved; the width of a text
    in the embedded font is a parameter. *)
Definition createDiffPdf (widthOfTextAtSize : jsstring -> Q -> Q)
    (diffLines : jsstring -> jsstring -> list Change)
    (text1 text2 : jsstring) : list (list DrawText) :=
  pdfPages
    (fold_left (pdfPartStep widthOfTextAtSize) (diffLines text1 text2)
       pdfHeader).

(** *** Lines of the differences document *)

Definition space_free (l : jsstring) : Prop := Forall (fun c => c <> SPACE) l.

(** The text fits the width of the page between the margins. *)
Definition fits (widthOfTextAtSize : jsstring -> Q -> Q) (l : jsstring)
  : Prop :=
  (widthOfTextAtSize (sanitizeTextForWinAnsi l) fontSize <= maxWidth)%Q.

(** A line of the body of the differences document: the sanitized form
    of a non-empty text that fits the width or is one unbreakable word,
    at the left margin, in the body size, in the colour of a part. *)
Definition body_line (widthOfTextAtSize : jsstring -> Q -> Q)
    (parts : list Change) (d : DrawText) : Prop :=
  exists part l,
    In part parts
    /\ dt_text d = sanitizeTextForWinAnsi l
    /\ l <> []
    /\ (fits widthOfTextAtSize l \/ space_free l)
    /\ dt_x d = margin /\ dt_size d = fontSize
    /\ dt_color d = partColor part.

(** All draw calls of a document. *)
Definition allDraws (st : DiffPdf) : list DrawText :=
  concat (pdfPages st).

(** Every draw call so far belongs to the header or is a body line. *)
Definition draws_ok (widthOfTextAtSize : jsstring -> Q -> Q)
    (parts : list Change) (st : DiffPdf) : Prop :=
  Forall (fun d => In d (currentPage pdfHeader)
                   \/ body_line widthOfTextAtSize parts d)
    (allDraws st).


(** A word diff that reports the single added part "x". *)
Definition diffAddsX (t1 t2 : jsstring) : list Change :=
  [ {| added := true; removed := false; value := lit "x" |} ].

(** *** Runs that tile the text *)

(** From page [pg] and offset [off] on, every run starts where the one
    before it ended, two characters later for every page break in
    between. *)
Fixpoint tiled (pg : nat) (off : Z) (bs : list TextItemBox) : Prop :=
  match bs with
  | [] => True
  | b :: rest =>
      (pg <= pageIndex b)%nat
      /\ start b = off + 2 * (Z.of_nat (pageIndex b) - Z.of_nat pg)
      /\ tiled (pageIndex b) (end_ b) rest
  end.

(** Page and end offset of the last run, or [(0, 0)] without runs. *)
Definition lastRun (bs : list TextItemBox) : nat * Z :=
  match last_error bs with
  | Some b => (pageIndex b, end_ b)
  | None => (0%nat, 0)
  end.

(** The invariant of the collection loop while page [k] is being read:
    the runs tile the text, which ends where the last run ends plus two
    characters for every page break since. *)
Definition tiles_ok (k : nat) (acc : Layout) : Prop :=
  tiled 0 0 (items acc)
  /\ (fst (lastRun (items acc)) <= k)%nat
  /\ strlen (text acc)
     = snd (lastRun (items acc))
       + 2 * (Z.of_nat k - Z.of_nat (fst (lastRun (items acc)))).

(** *** The length a segment covers *)

(** The offsets of a segment that its rectangles stand for: the sum,
    over the runs the segment overlaps, of [overlapEnd - overlapStart],
    the numerator of [fracWidth]. *)
Definition covered (seg : Segment) (its : list TextItemBox) : Z :=
  fold_right Z.add 0
    (map (fun it => overlapEnd seg it - overlapStart seg it)
       (filter (overlapping seg) its)).

(** Each run starts exactly where the one before it ends, the first one
    at [off]. *)
Fixpoint contiguous (off : Z) (bs : list TextItemBox) : Prop :=
  match bs with
  | [] => True
  | b :: rest => start b = off /\ start b < end_ b /\ contiguous (end_ b) rest
  end.

(** Where a list of runs ends: at the end of its last run, or at [off]
    if there is none. *)
Fixpoint endOf (off : Z) (bs : list TextItemBox) : Z :=
  match bs with
  | [] => off
  | b :: rest => endOf (end_ b) rest
  end.

(** A one-page document reading "ab" and "cd". *)
Definition onePage : PdfFile := [ pageOf [plainItem "ab"; plainItem "cd"] ].

(** A segment from inside the first run of [onePage] to inside the
    second. *)
Definition insidePage : Segment :=
  {| seg_start := 1; seg_end := 5; kind := KAdded |}.

(* ================================================================= *)
(** ** The word diff *)

(** [diff.diffWords] belongs to the package [diff], which is not under
    the sources. The specification describes the word diff as a
    longest-common-subsequence alignment applied at word granularity
    over the two full strings, whose aligned blocks are tagged
    unchanged, added or removed. The definitions of this part follow
    that description: a text is cut into words and runs of white space,
    the two token lists are aligned along a longest common subsequence,
    and neighbouring tokens of one tag are merged into one part. *)

(** Modelled from the spec: the three tags of an aligned block. *)
Inductive Tag : Type := Kept | Added | Removed.

Definition tag_eqb (a b : Tag) : bool :=
  match a, b with
  | Kept, Kept | Added, Added | Removed, Removed => true
  | _, _ => false
  end.

(** Modelled from the spec: the tokens of a text at word granularity,
    its maximal runs of white space and of other characters. *)
Fixpoint tokenize (s : jsstring) : list jsstring :=
  match s with
  | [] => []
  | c :: rest =>
      match tokenize rest with
      | (d :: tok) :: toks =>
          if Bool.eqb (is_ws c) (is_ws d) then (c :: d :: tok) :: toks
          else [c] :: (d :: tok) :: toks
      | _ => [[c]]
      end
  end.

Definition token_eqb (a b : jsstring) : bool :=
  if list_eq_dec N.eq_dec a b then true else false.

(** The number of tokens an alignment adds or removes. *)
Definition cost (al : list (Tag * jsstring)) : nat :=
  length (filter (fun e => negb (tag_eqb (fst e) Kept)) al).

(** Modelled from the spec: an alignment of two token lists along a
    longest common subsequence, that is with as many kept tokens as
    possible; at equal cost the removal comes first. *)
Fixpoint align (xs ys : list jsstring) {struct xs}
  : list (Tag * jsstring) :=
  match xs with
  | [] => map (pair Added) ys
  | x :: xs' =>
      (fix inner (ys : list jsstring) : list (Tag * jsstring) :=
         match ys with
         | [] => map (pair Removed) (x :: xs')
         | y :: ys' =>
             if token_eqb x y then (Kept, x) :: align xs' ys'
             else
               let viaRemoval := (Removed, x) :: align xs' (y :: ys') in
               let viaAddition := (Added, y) :: inner ys' in
               if (cost viaRemoval <=? cost viaAddition)%nat
               then viaRemoval else viaAddition
         end) ys
  end.

Definition partOf (tg : Tag) (v : jsstring) : Change :=
  {| added := tag_eqb tg Added; removed := tag_eqb tg Removed; value := v |}.

Definition tagOf (p : Change) : Tag :=
  if added p then Added else if removed p then Removed else Kept.

(** Modelled from the spec: the aligned blocks; neighbouring tokens of
    one tag become one part. *)
Fixpoint group (al : list (Tag * jsstring)) : list Change :=
  match al with
  | [] => []
  | (tg, v) :: rest =>
      match group rest with
      | p :: ps =>
          if tag_eqb tg (tagOf p) then partOf tg (v ++ value p) :: ps
          else partOf tg v :: p :: ps
      | [] => [partOf tg v]
      end
  end.

(** Modelled from the spec: the word diff of two texts, in place of
    [diff.diffWords] of the package [diff]. *)
Definition specDiffWords (t1 t2 : jsstring) : list Change :=
  group (align (tokenize t1) (tokenize t2)).

(** A part as the model makes it: its flags are those of one tag. *)
Definition tagged (p : Change) : Prop := p = partOf (tagOf p) (value p).

(* ================================================================= *)
(** ** Runs and the items they come from *)

(** Every text item of a file with the page it is on, in extraction
    order. *)
Definition itemsWithPage (file : PdfFile) : list (SrcPage * TextItem) :=
  flat_map (fun p => map (pair p) (page_items p)) file.

(** The run [b] lies on the page [p] of the file and has the geometry
    the extractor computes for the item [it] of that page. *)
Definition geometry_ok (file : PdfFile) (b : TextItemBox)
    (pit : SrcPage * TextItem) : Prop :=
  let p := fst pit in
  let it := snd pit in
  let rx := (page_width p / viewport_width p)%Q in
  let ry := (page_height p / viewport_height p)%Q in
  nth_error file (pageIndex b) = Some p
  /\ x b = (tx it * rx)%Q
  /\ y b = Qmax 0 (page_height p - (ty it * ry + hCanvas it * ry))
  /\ width b = Qmax 1 (wCanvas it * rx)
  /\ height b = (hCanvas it * ry)%Q.

(** Scenario C as a document: one page with a first item of 99
    characters and a second item of 5 characters, which becomes the run
    over offsets 100..106, 60 wide from x = 50. *)
Definition scenarioCFile : PdfFile :=
  [ pageOf
      [ {| item_str := Some (repeat 97%N 99);
           item_transform :=
             Some {| t0 := 1; t1 := 0; t2 := 0; t3 := 10;
                     t4 := 0; t5 := 700 |};
           item_width := Some 50%Q;
           item_height := None |};
        {| item_str := Some (lit "chang");
           item_transform :=
             Some {| t0 := 1; t1 := 0; t2 := 0; t3 := 10;
                     t4 := 50; t5 := 700 |};
           item_width := Some 60%Q;
           item_height := None |} ] ].

(* ================================================================= *)
(** ** The encoding of the output font *)

(** Modelled from the spec: part of the table of [winAnsi] below, the
    27 characters that Windows code page 1252 places between 0x80 and
    0x9F, by code point: the euro sign, the low and the curly quotes,
    the daggers, the dashes, the bullet, the ellipsis, the trade mark
    sign and some letters. *)
Definition winAnsiSpecials : list N :=
  [ 0x20AC; 0x201A; 0x0192; 0x201E; 0x2026; 0x2020; 0x2021; 0x02C6;
    0x2030; 0x0160; 0x2039; 0x0152; 0x017D; 0x2018; 0x2019; 0x201C;
    0x201D; 0x2022; 0x2013; 0x2014; 0x02DC; 0x2122; 0x0161; 0x203A;
    0x0153; 0x017E; 0x0178 ]%N.

(** Modelled from the spec: the characters that the encoding of the
    output document's font can represent. The font is the standard
    Helvetica of pdf-lib, whose encoding is WinAnsi, that is Windows code
    page 1252; the table belongs to pdf-lib, which is not under the
    sources. By code point: the printable ASCII characters, the Latin-1
    signs and letters from U+00A0 on, and [winAnsiSpecials]. The control
    characters, the tabulator, the carriage return and U+007F among
    them, have no entry: pdf-lib throws when it is asked for the width
    of such a character or to draw it. *)
Definition winAnsi (cp : N) : bool :=
  ((0x20 <=? cp)%N && (cp <=? 0x7E)%N)
  || ((0xA0 <=? cp)%N && (cp <=? 0xFF)%N)
  || existsb (N.eqb cp) winAnsiSpecials.


(** Modelled from the spec: the sanitizer in the words of the
    specification, on a text given by its code points. A code point the
    encoding cannot represent gives exactly one placeholder, a hyphen for
    the arrowhead and a question mark for any other; a representable
    character is passed through unchanged. *)
Definition describedSanitizer (cps : list N) : jsstring :=
  flat_map (fun cp => if winAnsi cp then utf16_of_code_point cp
                      else [placeholder cp]) cps.

(* ================================================================= *)
(** * Properties *)

(** ** General facts about lists and loops *)

Lemma fold_left_invariant {A B : Type} (f : A -> B -> A) (P : A -> Prop)
    (l : list B) :
  (forall a b, In b l -> P a -> P (f a b)) ->
  forall a, P a -> P (fold_left f l a).
Proof.
  induction l as [|b l IH]; intros Hstep a Ha; simpl.
  - exact Ha.
  - apply IH.
    + intros a' b' Hin. apply Hstep. now right.
    + apply Hstep; [now left | exact Ha].
Qed.

Lemma indexed_snd {A : Type} (l : list A) : map snd (indexed l) = l.
Proof.
  unfold indexed. generalize 0%nat.
  induction l as [|a l IH]; intro n; simpl; [reflexivity|].
  now rewrite IH.
Qed.

Lemma indexed_In {A : Type} (l : list A) (i : nat) (a : A) :
  In (i, a) (indexed l) -> (i < length l)%nat.
Proof.
  unfold indexed. intro H.
  apply in_combine_l in H. apply in_seq in H. lia.
Qed.

Lemma strlen_app (s t : jsstring) : strlen (s ++ t) = strlen s + strlen t.
Proof. unfold strlen. rewrite length_app. lia. Qed.

Lemma strlen_nonneg (s : jsstring) : 0 <= strlen s.
Proof. unfold strlen. lia. Qed.

(** ** The extractor *)

Lemma collectPage_unfold (acc : Layout) (pidx : nat) (page : SrcPage) :
  collectPage acc (pidx, page) =
  let acc2 :=
    fold_left
      (pushItem pidx (page_width page) (page_height page)
         (page_width page / viewport_width page)%Q
         (page_height page / viewport_height page)%Q)
      (page_items page)
      {| items := items acc; text := text acc;
         pageHeights := pageHeights acc ++ [page_height page];
         pageWidths := pageWidths acc ++ [page_width page] |} in
  {| items := items acc2; text := text acc2 ++ [LF; LF];
     pageHeights := pageHeights acc2; pageWidths := pageWidths acc2 |}.
Proof.
  unfold collectPage. destruct (page_items page); reflexivity.
Qed.

Lemma pushItem_fold_text pidx pw ph rx ry (its : list TextItem) :
  forall acc,
    text (fold_left (pushItem pidx pw ph rx ry) its acc) =
    text acc ++ concat (map itemText its).
Proof.
  induction its as [|it its IH]; intro acc; simpl.
  - now rewrite app_nil_r.
  - rewrite IH. simpl. unfold itemText. now rewrite <- app_assoc.
Qed.

Lemma collectPage_text (acc : Layout) (ip : nat * SrcPage) :
  text (collectPage acc ip) = text acc ++ layoutPageText (snd ip).
Proof.
  destruct ip as [pidx page]. rewrite collectPage_unfold. simpl.
  rewrite pushItem_fold_text. simpl. unfold layoutPageText.
  now rewrite <- app_assoc.
Qed.

Lemma collect_fold_text (l : list (nat * SrcPage)) :
  forall acc,
    text (fold_left collectPage l acc) =
    text acc ++ concat (map layoutPageText (map snd l)).
Proof.
  induction l as [|ip l IH]; intro acc; simpl.
  - now rewrite app_nil_r.
  - rewrite IH, collectPage_text. now rewrite <- app_assoc.
Qed.

(** The assembled text of the layout, page by page. *)
Lemma layout_text (file : PdfFile) :
  text (collectSecondTextLayout file) = concat (map layoutPageText file).
Proof.
  unfold collectSecondTextLayout.
  rewrite collect_fold_text, indexed_snd. reflexivity.
Qed.

Lemma fallback_fold_text (file : PdfFile) :
  forall acc,
    fold_left (fun fullText p => fullText ++ (pageText p ++ [LF; LF])) file acc
    = acc ++ concat (map (fun p => pageText p ++ [LF; LF]) file).
Proof.
  induction file as [|p file IH]; intro acc; simpl.
  - now rewrite app_nil_r.
  - rewrite IH. now rewrite <- app_assoc.
Qed.

(** The text of the fallback extraction, page by page. *)
Lemma fallback_text (file : PdfFile) :
  extractTextLocalFallback file =
  concat (map (fun p => pageText p ++ [LF; LF]) file).
Proof. unfold extractTextLocalFallback. now rewrite fallback_fold_text. Qed.

(** Appending a space after every piece is joining with spaces and adding
    one more space at the end, unless there is no piece at all. *)
Lemma concat_sep_join (ss : list jsstring) :
  ss <> [] ->
  concat (map (fun s => s ++ [SPACE]) ss) = join [SPACE] ss ++ [SPACE].
Proof.
  induction ss as [|s ss IH]; intro Hne; [congruence|].
  destruct ss as [|s' ss].
  - simpl. now rewrite app_nil_r.
  - change (concat (map (fun s0 => s0 ++ [SPACE]) (s :: s' :: ss)))
      with ((s ++ [SPACE]) ++ concat (map (fun s0 => s0 ++ [SPACE]) (s' :: ss))).
    rewrite IH by congruence.
    change (join [SPACE] (s :: s' :: ss))
      with (s ++ [SPACE] ++ join [SPACE] (s' :: ss)).
    now rewrite <- !app_assoc.
Qed.

Lemma layoutPageText_length (p : SrcPage) :
  length (layoutPageText p) =
  (length (pageText p ++ [LF; LF])
   + (match page_items p with [] => 0 | _ => 1 end))%nat.
Proof.
  unfold layoutPageText, pageText, itemText.
  destruct (page_items p) as [|it its] eqn:E.
  - reflexivity.
  - rewrite <- (map_map str_or_empty (fun s => s ++ [SPACE])).
    rewrite concat_sep_join by (simpl; congruence).
    rewrite !length_app. simpl. lia.
Qed.

(** The layout's text is longer than the fallback's by one character for
    every page that has text. *)
Lemma layout_text_length (file : PdfFile) :
  length (text (collectSecondTextLayout file)) =
  (length (extractTextLocalFallback file) + nonEmptyPages file)%nat.
Proof.
  rewrite layout_text, fallback_text. unfold nonEmptyPages.
  induction file as [|p file IH]; [reflexivity|].
  cbn [map concat filter]. rewrite !length_app, IH, layoutPageText_length.
  rewrite !length_app.
  destruct (page_items p); cbn [negb length]; lia.
Qed.

(** The two assembled strings coincide exactly on the files without any
    text item. *)
Lemma layout_text_eq_fallback_iff (file : PdfFile) :
  text (collectSecondTextLayout file) = extractTextLocalFallback file
  <-> nonEmptyPages file = 0%nat.
Proof.
  split.
  - intro H. apply (f_equal (@length N)) in H.
    rewrite layout_text_length in H. lia.
  - rewrite layout_text, fallback_text. unfold nonEmptyPages.
    induction file as [|p file IH]; [reflexivity|].
    simpl. unfold layoutPageText at 1, pageText at 1.
    destruct (page_items p); simpl; [|discriminate].
    intro H. now rewrite IH.
Qed.

(** C1 (evaluation at a document with text). On the two-page document
    reading "a" and "b" the fallback extraction assembles "a\n\nb\n\n"
    while the layout collection assembles "a \n\nb \n\n": the two strings
    differ, and the run of "b" sits at offsets 4..6 of the layout's string
    although "b" is character 3 of the string that is diffed. *)
Theorem C1_fallback_and_layout_texts_differ :
  extractTextLocalFallback twoPages = [97; 10; 10; 98; 10; 10]%N
  /\ text (collectSecondTextLayout twoPages)
     = [97; 32; 10; 10; 98; 32; 10; 10]%N
  /\ extents (collectSecondTextLayout twoPages) = [(0, 2); (4, 6)]
  /\ nth_error (extractTextLocalFallback twoPages) 3 = Some 98%N
  /\ nth_error (text (collectSecondTextLayout twoPages)) 3 = Some 10%N
  /\ text (collectSecondTextLayout twoPages)
     <> extractTextLocalFallback twoPages.
Proof.
  repeat split; try reflexivity.
  intro H. vm_compute in H. discriminate H.
Qed.

(** *** Offsets of the runs *)

Lemma chained_bounds (bs : list TextItemBox) :
  forall lo hi, chained lo bs hi -> lo <= hi.
Proof.
  induction bs as [|b bs IH]; simpl; intros lo hi H.
  - exact H.
  - destruct H as (H1 & H2 & H3). apply IH in H3. lia.
Qed.

Lemma chained_widen (bs : list TextItemBox) :
  forall lo hi hi', chained lo bs hi -> hi <= hi' -> chained lo bs hi'.
Proof.
  induction bs as [|b bs IH]; simpl; intros lo hi hi' H Hle.
  - lia.
  - destruct H as (H1 & H2 & H3). eauto.
Qed.

Lemma chained_snoc (bs : list TextItemBox) (b : TextItemBox) :
  forall lo hi hi',
    chained lo bs hi -> hi <= start b -> start b < end_ b -> end_ b <= hi' ->
    chained lo (bs ++ [b]) hi'.
Proof.
  induction bs as [|c bs IH]; simpl; intros lo hi hi' H H1 H2 H3.
  - repeat split; lia.
  - destruct H as (Ha & Hb & Hc). repeat split; eauto.
Qed.

Lemma chained_adjacent (bs : list TextItemBox) :
  forall lo hi i a b,
    chained lo bs hi ->
    nth_error bs i = Some a -> nth_error bs (S i) = Some b ->
    end_ a <= start b.
Proof.
  induction bs as [|c bs IH]; intros lo hi i a b H Ha Hb.
  - destruct i; discriminate.
  - destruct H as (H1 & H2 & H3). destruct i as [|i].
    + simpl in Ha. injection Ha as ->.
      destruct bs as [|d bs]; [discriminate|].
      simpl in Hb. injection Hb as ->.
      simpl in H3. tauto.
    + simpl in Ha. change (nth_error bs (S i) = Some b) in Hb. eauto.
Qed.

Lemma chained_nonempty (bs : list TextItemBox) :
  forall lo hi b, chained lo bs hi -> In b bs -> start b < end_ b.
Proof.
  induction bs as [|c bs IH]; intros lo hi b H Hin; [contradiction|].
  destruct H as (H1 & H2 & H3). destruct Hin as [->|Hin]; eauto.
Qed.

Lemma pushItem_offsets_ok pidx pw ph rx ry acc it :
  offsets_ok acc -> offsets_ok (pushItem pidx pw ph rx ry acc it).
Proof.
  unfold offsets_ok, pushItem. cbn [items text]. intro H.
  eapply chained_snoc; [exact H | | | ]; cbn [start end_];
    rewrite ?strlen_app; unfold strlen; simpl length; lia.
Qed.

Lemma collectPage_offsets_ok acc ip :
  offsets_ok acc -> offsets_ok (collectPage acc ip).
Proof.
  destruct ip as [pidx page]. intro H. rewrite collectPage_unfold.
  cbv zeta. unfold offsets_ok. cbn [items text].
  eapply chained_widen.
  - apply (fold_left_invariant _ offsets_ok).
    + intros a b _. apply pushItem_offsets_ok.
    + exact H.
  - rewrite strlen_app. unfold strlen. simpl length. lia.
Qed.

Lemma layout_offsets_ok (file : PdfFile) :
  offsets_ok (collectSecondTextLayout file).
Proof.
  unfold collectSecondTextLayout.
  apply (fold_left_invariant _ offsets_ok).
  - intros a b _. apply collectPage_offsets_ok.
  - unfold offsets_ok. simpl. unfold strlen. simpl. lia.
Qed.

(** C7. In the layout collected from any document, a run ends no later
    than the next run in emission order starts, and every run ends after
    it starts. *)
Theorem C7_layout_offsets_monotone (file : PdfFile) :
  (forall i a b,
      nth_error (items (collectSecondTextLayout file)) i = Some a ->
      nth_error (items (collectSecondTextLayout file)) (S i) = Some b ->
      end_ a <= start b)
  /\ (forall r, In r (items (collectSecondTextLayout file)) ->
                end_ r > start r).
Proof.
  pose proof (layout_offsets_ok file) as H. unfold offsets_ok in H. split.
  - intros i a b. now apply chained_adjacent with (1 := H).
  - intros r Hin. apply Z.lt_gt. now apply chained_nonempty with (1 := H).
Qed.

(** C7 at the two-page example, whose runs are [0,2) and [4,6). *)
Lemma C7_layout_offsets_monotone_witness :
  exists a b,
    nth_error (items (collectSecondTextLayout twoPages)) 0 = Some a
    /\ nth_error (items (collectSecondTextLayout twoPages)) 1 = Some b
    /\ end_ a <= start b /\ end_ a > start a.
Proof.
  destruct (C7_layout_offsets_monotone twoPages) as [Hadj Hpos].
  eexists. eexists.
  split; [reflexivity|]. split; [reflexivity|]. split.
  - apply (Hadj 0%nat); reflexivity.
  - apply Hpos. left. reflexivity.
Defined.

(** ** The segment construction *)

Lemma at_index_middle {A : Type} (pre suf : list A) (p : A) :
  at_index (pre ++ p :: suf) (Z.of_nat (length pre)) = Some p.
Proof.
  unfold at_index.
  destruct (Z.ltb_spec (Z.of_nat (length pre)) 0) as [H|_]; [lia|].
  rewrite Nat2Z.id, nth_error_app2 by lia.
  now rewrite Nat.sub_diag.
Qed.

Lemma at_index_prev {A : Type} (pre suf : list A) :
  at_index (pre ++ suf) (Z.of_nat (length pre) - 1) = last_error pre.
Proof.
  unfold at_index, last_error.
  destruct pre as [|a pre'] using rev_ind.
  - reflexivity.
  - rewrite length_app. simpl length. rewrite rev_app_distr. simpl.
    destruct (Z.ltb_spec (Z.of_nat (length pre' + 1) - 1) 0) as [H|_]; [lia|].
    replace (Z.to_nat (Z.of_nat (length pre' + 1) - 1)) with (length pre')
      by lia.
    rewrite <- app_assoc. rewrite nth_error_app2 by lia.
    now rewrite Nat.sub_diag.
Qed.

Lemma at_index_next {A : Type} (pre suf : list A) (p : A) :
  at_index (pre ++ p :: suf) (Z.of_nat (length pre) + 1) = hd_error suf.
Proof.
  unfold at_index.
  destruct (Z.ltb_spec (Z.of_nat (length pre) + 1) 0) as [H|_]; [lia|].
  replace (Z.to_nat (Z.of_nat (length pre) + 1)) with (S (length pre)) by lia.
  rewrite nth_error_app2 by lia.
  replace (S (length pre) - length pre)%nat with 1%nat by lia.
  destruct suf; reflexivity.
Qed.

(** With at most one flag per part, testing the [removed] flag of a
    neighbour is testing that it is a removed part. *)
Lemma and_removed_one_flag (parts : list Change) (q : option Change) :
  Forall one_flag parts ->
  (forall p, q = Some p -> In p parts) ->
  and_removed q = is_removed_part q.
Proof.
  intros Hall Hin. destruct q as [p|]; [|reflexivity].
  simpl. unfold part_kind.
  assert (H : one_flag p).
  { rewrite Forall_forall in Hall. apply Hall, Hin. reflexivity. }
  unfold one_flag in H.
  destruct (added p), (removed p); simpl in *; congruence.
Qed.

Lemma last_error_In {A : Type} (l : list A) (a : A) :
  last_error l = Some a -> In a l.
Proof.
  unfold last_error. intro H. apply in_rev.
  destruct (rev l); simpl in H; [discriminate|].
  injection H as ->. now left.
Qed.

Lemma hd_error_In {A : Type} (l : list A) (a : A) :
  hd_error l = Some a -> In a l.
Proof. destruct l; simpl; [discriminate|]. intros [= ->]. now left. Qed.

(** The loop from index [length pre] on is the walk over the remaining
    parts. *)
Lemma segStep_fold_walk (suf : list Change) :
  forall (pre : list Change) (acc : SegAcc),
    Forall one_flag (pre ++ suf) ->
    segments
      (fold_left (segStep (pre ++ suf))
         (map Z.of_nat (seq (length pre) (length suf))) acc)
    = segments acc ++ walk (last_error pre) (pos2 acc) suf.
Proof.
  induction suf as [|p rest IH]; intros pre acc Hall.
  - simpl. now rewrite app_nil_r.
  - cbn [length seq map fold_left].
    assert (Hrew : pre ++ p :: rest = (pre ++ [p]) ++ rest)
      by now rewrite <- app_assoc.
    assert (Hlen : S (length pre) = length (pre ++ [p]))
      by (rewrite length_app; simpl; lia).
    assert (Hlast : last_error (pre ++ [p]) = Some p)
      by (unfold last_error; now rewrite rev_app_distr).
    assert (Hstep :
      segStep (pre ++ p :: rest) acc (Z.of_nat (length pre)) =
      match part_kind p with
      | PAdded =>
          {| segments := segments acc ++
               [ {| seg_start := pos2 acc;
                    seg_end := pos2 acc + strlen (value p);
                    kind := if is_removed_part (last_error pre)
                               || is_removed_part (hd_error rest)
                            then KModified else KAdded |} ];
             pos2 := pos2 acc + strlen (value p) |}
      | PRemoved => acc
      | PUnchanged =>
          {| segments := segments acc;
             pos2 := pos2 acc + strlen (value p) |}
      end).
    { unfold segStep. rewrite at_index_middle, at_index_next, at_index_prev.
      rewrite (and_removed_one_flag (pre ++ p :: rest) (last_error pre) Hall).
      2:{ intros q Hq. apply in_or_app. left. now apply last_error_In. }
      rewrite (and_removed_one_flag (pre ++ p :: rest) (hd_error rest) Hall).
      2:{ intros q Hq. apply in_or_app. right. right.
          now apply hd_error_In. }
      unfold part_kind. destruct (added p), (removed p); reflexivity. }
    rewrite Hstep, Hrew, Hlen, IH by (now rewrite <- Hrew).
    rewrite Hlast. cbn [walk].
    destruct (part_kind p); cbn [segments pos2];
      rewrite <- ?app_assoc; reflexivity.
Qed.

(** C2. When every part carries at most one flag, the segments built from
    the parts of [diffWords t1 t2] are those of the single walk described:
    [pos2] starts at 0; an added part emits [{start: pos2, end: pos2 + len}]
    and advances [pos2] by [len]; a removed part emits nothing and leaves
    [pos2]; an unchanged part emits nothing and advances [pos2]; the
    emitted segment is [modified] exactly when the part just before or
    just after is a removed part, and [added] otherwise. *)
Theorem C2_segments_are_the_walk
    (diffWords : jsstring -> jsstring -> list Change) (t1 t2 : jsstring) :
  Forall one_flag (diffWords t1 t2) ->
  computeAddedAndModifiedSegments diffWords t1 t2
  = walk None 0 (diffWords t1 t2).
Proof.
  intro Hall. unfold computeAddedAndModifiedSegments, segmentsOfParts, indices.
  apply (segStep_fold_walk (diffWords t1 t2) [] {| segments := []; pos2 := 0 |}).
  exact Hall.
Qed.

(** C2 at Scenario B: "Gamma" at offsets 6..11 is [modified]. *)
Lemma C2_segments_are_the_walk_witness :
  Forall one_flag partsB
  /\ computeAddedAndModifiedSegments (fun _ _ => partsB) (lit "Alpha Beta")
       (lit "Alpha Gamma")
     = [ {| seg_start := 6; seg_end := 11; kind := KModified |} ].
Proof.
  assert (H : Forall one_flag partsB)
    by (repeat constructor).
  split; [exact H|].
  rewrite (C2_segments_are_the_walk (fun _ _ => partsB) _ _ H).
  reflexivity.
Defined.

(** Scenario A: the inserted "there " at offsets 6..12 is [added]. *)
Example segments_scenario_A :
  segmentsOfParts partsA
  = [ {| seg_start := 6; seg_end := 12; kind := KAdded |} ].
Proof. reflexivity. Qed.

(** ** The annotation renderer *)

Lemma copyPages_suffix (suf : list PDFPage) :
  forall pre,
    copyPages (pre ++ suf) (seq (length pre) (length suf)) = Some suf.
Proof.
  induction suf as [|p suf IH]; intro pre; [reflexivity|].
  cbn [length seq copyPages].
  rewrite nth_error_app2 by lia. rewrite Nat.sub_diag. cbn [nth_error].
  replace (pre ++ p :: suf) with ((pre ++ [p]) ++ suf)
    by now rewrite <- app_assoc.
  replace (S (length pre)) with (length (pre ++ [p]))
    by (rewrite length_app; simpl; lia).
  now rewrite IH.
Qed.

(** Copying all pages of a document yields its pages. *)
Lemma copyPages_all (doc : PDFDocument) :
  copyPages doc (getPageIndices doc) = Some doc.
Proof. exact (copyPages_suffix doc []). Qed.

Lemma addPage_fold (ps : list PDFPage) :
  forall doc, fold_left addPage ps doc = doc ++ ps.
Proof.
  induction ps as [|p ps IH]; intro doc; simpl.
  - now rewrite app_nil_r.
  - rewrite IH. unfold addPage. now rewrite <- app_assoc.
Qed.

Lemma length_setPage (doc : PDFDocument) :
  forall idx p, length (setPage doc idx p) = length doc.
Proof.
  induction doc as [|q doc IH]; intros [|idx] p; simpl; auto.
Qed.

Lemma nth_error_setPage (doc : PDFDocument) :
  forall idx p k,
    nth_error (setPage doc idx p) k =
    if Nat.eqb k idx then option_map (fun _ => p) (nth_error doc k)
    else nth_error doc k.
Proof.
  induction doc as [|q doc IH]; intros [|idx] p [|k]; simpl; auto.
  - now destruct (Nat.eqb k idx).
Qed.

Lemma drawnOnto_refl (doc : PDFDocument) :
  drawnOnto doc doc (fun _ _ => []).
Proof.
  split; [reflexivity|]. intros k page H. exists page.
  now rewrite app_nil_r.
Qed.

Lemma drawnOnto_trans (d1 d2 d3 : PDFDocument) (e1 e2 : nat -> Q -> list Rect) :
  drawnOnto d1 d2 e1 -> drawnOnto d2 d3 e2 ->
  drawnOnto d1 d3 (fun k h => e1 k h ++ e2 k h).
Proof.
  intros [L1 H1] [L2 H2]. split; [congruence|].
  intros k page Hk.
  destruct (H1 k page Hk) as (p2 & Hk2 & F2 & D2).
  destruct (H2 k p2 Hk2) as (p3 & Hk3 & F3 & D3).
  exists p3. split; [exact Hk3|]. split; [congruence|].
  rewrite D3, D2, <- app_assoc.
  replace (size_height p2) with (size_height page); [reflexivity|].
  unfold pageFrame in F2. congruence.
Qed.

(** One turn of the inner loop: it succeeds when the run's page exists,
    and appends the pair's rectangle to that page only. *)
Lemma annotateItem_drawnOnto (seg : Segment) (doc : PDFDocument)
    (it : TextItemBox) :
  (pageIndex it < length doc)%nat ->
  exists doc',
    annotateItem seg (Some doc) it = Some doc'
    /\ drawnOnto doc doc' (itemRects seg it).
Proof.
  intro Hidx. unfold annotateItem, itemRects, overlapping.
  destruct (overlapEnd seg it <=? overlapStart seg it) eqn:E.
  - exists doc. split; [reflexivity|]. apply drawnOnto_refl.
  - destruct (nth_error doc (pageIndex it)) as [page|] eqn:Hp.
    2:{ apply nth_error_None in Hp. lia. }
    eexists. split; [reflexivity|]. split; [apply length_setPage|].
    intros k pk Hk. rewrite nth_error_setPage, Hk. simpl.
    rewrite (Nat.eqb_sym k). 
    destruct (Nat.eqb (pageIndex it) k) eqn:Ek.
    + apply Nat.eqb_eq in Ek. subst k.
      assert (pk = page) by congruence. subst pk.
      eexists. split; [reflexivity|]. split; reflexivity.
    + exists pk. split; [reflexivity|]. split; [reflexivity|].
      now rewrite app_nil_r.
Qed.

Lemma annotateSegment_drawnOnto (seg : Segment) (its : list TextItemBox) :
  forall doc : PDFDocument,
    Forall (fun it => (pageIndex it < length doc)%nat) its ->
    exists doc',
      annotateSegment its (Some doc) seg = Some doc'
      /\ drawnOnto doc doc'
           (fun k h => flat_map (fun it => itemRects seg it k h) its).
Proof.
  unfold annotateSegment.
  induction its as [|it its IH]; intros doc Hall.
  - exists doc. split; [reflexivity|]. apply drawnOnto_refl.
  - inversion Hall as [|? ? Hit Hrest]; subst.
    destruct (annotateItem_drawnOnto seg doc it Hit) as (d1 & E1 & D1).
    assert (Hrest' : Forall (fun it0 => (pageIndex it0 < length d1)%nat) its).
    { destruct D1 as [L _]. rewrite L. exact Hrest. }
    destruct (IH d1 Hrest') as (d2 & E2 & D2).
    exists d2. cbn [fold_left]. rewrite E1. split; [exact E2|].
    exact (drawnOnto_trans _ _ _ _ _ D1 D2).
Qed.

Lemma annotateSegments_drawnOnto (its : list TextItemBox)
    (segs : list Segment) :
  forall doc : PDFDocument,
    Forall (fun it => (pageIndex it < length doc)%nat) its ->
    exists doc',
      fold_left (annotateSegment its) segs (Some doc) = Some doc'
      /\ drawnOnto doc doc' (rectsFor segs its).
Proof.
  induction segs as [|seg segs IH]; intros doc Hall.
  - exists doc. split; [reflexivity|]. apply drawnOnto_refl.
  - destruct (annotateSegment_drawnOnto seg its doc Hall) as (d1 & E1 & D1).
    assert (Hall' : Forall (fun it0 => (pageIndex it0 < length d1)%nat) its).
    { destruct D1 as [L _]. rewrite L. exact Hall. }
    destruct (IH d1 Hall') as (d2 & E2 & D2).
    exists d2. cbn [fold_left]. rewrite E1. split; [exact E2|].
    exact (drawnOnto_trans _ _ _ _ _ D1 D2).
Qed.

(** Every run of the layout lies on a page of the file. *)
Lemma pushItem_pageIndex n pidx pw ph rx ry acc it :
  (pidx < n)%nat ->
  Forall (fun b => (pageIndex b < n)%nat) (items acc) ->
  Forall (fun b => (pageIndex b < n)%nat)
    (items (pushItem pidx pw ph rx ry acc it)).
Proof.
  intros Hp H. unfold pushItem. cbn [items].
  apply Forall_app. split; [exact H|]. now repeat constructor.
Qed.

Lemma layout_pageIndex (file : PdfFile) :
  Forall (fun b => (pageIndex b < length file)%nat)
    (items (collectSecondTextLayout file)).
Proof.
  unfold collectSecondTextLayout.
  apply (fold_left_invariant _
           (fun acc => Forall (fun b => (pageIndex b < length file)%nat)
                         (items acc))).
  - intros acc [pidx page] Hin H. apply indexed_In in Hin.
    rewrite collectPage_unfold. cbv zeta. cbn [items].
    apply (fold_left_invariant _
             (fun acc => Forall (fun b => (pageIndex b < length file)%nat)
                           (items acc))).
    + intros a b _. now apply pushItem_pageIndex.
    + exact H.
  - constructor.
Qed.

(** The renderer as a whole: it always produces a document, leaves the
    loaded input alone, and the output is the input's pages with exactly
    the rectangles of the overlapping pairs drawn on them. *)
Lemma annotate_drawnOnto (segs : list Segment) (file : PdfFile) :
  exists st,
    annotate segs file = Some st
    /\ inDoc st = load file
    /\ drawnOnto (load file) (outDoc st)
         (rectsFor segs (items (collectSecondTextLayout file))).
Proof.
  unfold annotate. rewrite copyPages_all, addPage_fold. unfold create.
  cbn [app].
  destruct (annotateSegments_drawnOnto
              (items (collectSecondTextLayout file)) segs (load file))
    as (doc' & E & D).
  { unfold load. rewrite length_map. apply layout_pageIndex. }
  rewrite E. eexists. split; [reflexivity|]. split; [reflexivity|exact D].
Qed.

Lemma drawnOnto_frames (doc doc' : PDFDocument) (e : nat -> Q -> list Rect) :
  drawnOnto doc doc' e -> map pageFrame doc' = map pageFrame doc.
Proof.
  intros [L H]. apply nth_error_ext. intro k. rewrite !nth_error_map.
  destruct (nth_error doc k) as [page|] eqn:Hk.
  - destruct (H k page Hk) as (page' & Hk' & F & _).
    rewrite Hk'. simpl. now rewrite F.
  - apply nth_error_None in Hk. rewrite <- L in Hk.
    apply nth_error_None in Hk. now rewrite Hk.
Qed.

Lemma load_frames (file : PdfFile) :
  map pageFrame (load file)
  = map (fun p => (page_width p, page_height p, page_content p)) file.
Proof. unfold load. rewrite map_map. reflexivity. Qed.

(** C8. The annotated document always exists; it has as many pages as the
    second input document, each with the input page's width, height and
    content (the pages are the copies of the input's pages, with
    rectangles only added on top), and the loaded input document is the
    same before and after. *)
Theorem C8_page_fidelity
    (diffWords : jsstring -> jsstring -> list Change)
    (text1 text2 : jsstring) (fileSecond : PdfFile) :
  exists st,
    createAnnotatedSecondPdf diffWords text1 text2 fileSecond = Some st
    /\ length (outDoc st) = length fileSecond
    /\ map (fun p => (size_width p, size_height p)) (outDoc st)
       = map (fun p => (page_width p, page_height p)) fileSecond
    /\ map content (outDoc st) = map page_content fileSecond
    /\ inDoc st = load fileSecond.
Proof.
  unfold createAnnotatedSecondPdf.
  destruct (annotate_drawnOnto
              (computeAddedAndModifiedSegments diffWords text1 text2)
              fileSecond) as (st & E & Hin & D).
  exists st. split; [exact E|].
  pose proof (drawnOnto_frames _ _ _ D) as F. rewrite load_frames in F.
  split; [|split; [|split]].
  - destruct D as [L _]. rewrite L. unfold load. apply length_map.
  - apply (f_equal (map (fun t : Q * Q * list N => (fst (fst t), snd (fst t)))))
      in F.
    rewrite !map_map in F. exact F.
  - apply (f_equal (map (fun t : Q * Q * list N => snd t))) in F.
    rewrite !map_map in F. exact F.
  - exact Hin.
Qed.

(** *** Identity *)

Lemma flat_map_all_nil {A B : Type} (f : A -> list B) (l : list A) :
  (forall a, In a l -> f a = []) -> flat_map f l = [].
Proof.
  induction l as [|a l IH]; intro H; simpl; [reflexivity|].
  rewrite (H a) by now left. apply IH. intros b Hb. apply H. now right.
Qed.

Lemma segmentsOfParts_no_added (parts : list Change) :
  (forall p, In p parts -> added p = false) ->
  segmentsOfParts parts = [].
Proof.
  intro Hno. unfold segmentsOfParts.
  apply (fold_left_invariant _ (fun acc => segments acc = [])).
  - intros acc i _ Hacc. unfold segStep, at_index.
    destruct (i <? 0); [exact Hacc|].
    destruct (nth_error parts (Z.to_nat i)) as [p|] eqn:Hp; [|exact Hacc].
    apply nth_error_In in Hp. rewrite (Hno p Hp).
    destruct (removed p); exact Hacc.
  - reflexivity.
Qed.

Lemma drawnOnto_nothing (file : PdfFile) (doc' : PDFDocument)
    (e : nat -> Q -> list Rect) :
  drawnOnto (load file) doc' e ->
  (forall k h, e k h = []) ->
  allDrawn doc' = [].
Proof.
  intros [L H] He. unfold allDrawn.
  apply flat_map_all_nil.
  intros p' Hin. apply In_nth_error in Hin. destruct Hin as [k Hk].
  assert (Hlt : (k < length (load file))%nat).
  { rewrite <- L. apply nth_error_Some. congruence. }
  destruct (nth_error (load file) k) as [page|] eqn:Hp.
  2:{ apply nth_error_None in Hp. lia. }
  destruct (H k page Hp) as (page' & Hk' & _ & D).
  assert (page' = p') by congruence. subst page'.
  rewrite D, He, app_nil_r.
  apply nth_error_In in Hp. unfold load in Hp. apply in_map_iff in Hp.
  destruct Hp as (sp & <- & _). reflexivity.
Qed.

(** Whenever a word diff reports no added part, the segment construction
    yields no segment, and the annotated output of any document then
    carries no rectangle at all. *)
Lemma no_added_part_no_rectangle
    (diffWords : jsstring -> jsstring -> list Change)
    (t1 t2 : jsstring) (fileSecond : PdfFile) :
  (forall p, In p (diffWords t1 t2) -> added p = false) ->
  computeAddedAndModifiedSegments diffWords t1 t2 = []
  /\ exists st,
       createAnnotatedSecondPdf diffWords t1 t2 fileSecond = Some st
       /\ length (outDoc st) = length fileSecond
       /\ allDrawn (outDoc st) = [].
Proof.
  intro Hno.
  assert (Hsegs : computeAddedAndModifiedSegments diffWords t1 t2 = []).
  { unfold computeAddedAndModifiedSegments.
    now apply segmentsOfParts_no_added. }
  split; [exact Hsegs|].
  unfold createAnnotatedSecondPdf. rewrite Hsegs.
  destruct (annotate_drawnOnto [] fileSecond) as (st & E & _ & D).
  exists st. split; [exact E|]. split.
  - destruct D as [L _]. rewrite L. unfold load. apply length_map.
  - apply (drawnOnto_nothing _ _ _ D). reflexivity.
Qed.

(** *** The rectangle of an overlapping pair *)

(** A pair that does not overlap draws nothing; one that does draws its
    rectangle once, on the page of the run. *)
Lemma itemRects_cases (seg : Segment) (it : TextItemBox) (k : nat) (h : Q) :
  (Z.min (seg_end seg) (end_ it) <= Z.max (seg_start seg) (start it) ->
   itemRects seg it k h = [])
  /\ (Z.min (seg_end seg) (end_ it) > Z.max (seg_start seg) (start it) ->
      itemRects seg it (pageIndex it) h = [highlightRect seg it h]).
Proof.
  unfold itemRects, overlapping, overlapEnd, overlapStart. split; intro H.
  - destruct (Z.leb_spec (Z.min (seg_end seg) (end_ it))
                (Z.max (seg_start seg) (start it))); [reflexivity|lia].
  - destruct (Z.leb_spec (Z.min (seg_end seg) (end_ it))
                (Z.max (seg_start seg) (start it))); [lia|].
    now rewrite Nat.eqb_refl.
Qed.

(** *** The separator belongs to the run *)




Lemma Forall2_nth_error {A B : Type} (R : A -> B -> Prop)
    (l : list A) (l' : list B) :
  Forall2 R l l' ->
  forall i a b, nth_error l i = Some a -> nth_error l' i = Some b -> R a b.
Proof.
  induction 1 as [|a0 b0 l l' H0 H IH]; intros [|i] a b Ha Hb;
    simpl in *; try discriminate.
  - congruence.
  - eauto.
Qed.

(** *** The vertical position of the rectangle *)

(** Flipping a flipped coordinate gives back the coordinate that was
    flipped, as long as the run lies within the page. *)
Lemma double_flip (pageH yTop h : Q) :
  (0 <= yTop)%Q -> (yTop + h <= pageH)%Q ->
  (Qmax 0 (pageH - (yBottomPt pageH yTop h + h)) == yTop)%Q.
Proof.
  intros H0 H1. unfold yBottomPt.
  assert (E : (Qmax 0 (pageH - (yTop + h)) == pageH - (yTop + h))%Q).
  { apply Q.max_r. lra. }
  rewrite E. rewrite Q.max_r by lra. ring.
Qed.

(** The rectangle of a run whose [y] is the extractor's flip of [yTop]
    is drawn at [yTop], not at the run's [y]. *)
Lemma highlightRect_y_unflipped (seg : Segment) (b : TextItemBox)
    (pageH yTop : Q) :
  y b = yBottomPt pageH yTop (height b) ->
  (0 <= yTop)%Q -> (yTop + height b <= pageH)%Q ->
  (rect_y (highlightRect seg b pageH) == yTop)%Q.
Proof.
  intros Hy H0 H1. unfold highlightRect. cbn [rect_y]. rewrite Hy.
  now apply double_flip.
Qed.

(** C3 (counter-example). On the one-page document of height 800 whose
    item has transform y = 100 and height 10, the extractor records the
    run at the flipped y = 800 - (100 + 10) = 690; the renderer flips that
    value once more and draws the rectangle at y = 800 - (690 + 10) = 100,
    which is not the run's y. *)
Theorem C3_rectangle_y_is_flipped_twice :
  exists b st r,
    items (collectSecondTextLayout flipFile) = [b]
    /\ (y b == 690)%Q
    /\ (height b == 10)%Q
    /\ annotate [flipSeg] flipFile = Some st
    /\ allDrawn (outDoc st) = [r]
    /\ (rect_y r == 100)%Q
    /\ ~ (rect_y r == y b)%Q.
Proof.
  eexists. eexists. eexists.
  split; [reflexivity|]. split; [reflexivity|]. split; [reflexivity|].
  split; [reflexivity|]. split; [reflexivity|]. split; [reflexivity|].
  intro H. vm_compute in H. discriminate H.
Qed.

(** ** The line diff *)

Lemma push_row_shape (f : nat -> LineAcc -> nat * jsstring -> LineAcc)
    (n : nat) (lines : list (nat * jsstring)) (acc : LineAcc) :
  (forall a il, Forall row_shape (result a) ->
                Forall row_shape (result (f n a il))) ->
  Forall row_shape (result acc) ->
  Forall row_shape (result (fold_left (f n) lines acc)).
Proof.
  intros Hf.
  apply (fold_left_invariant (f n) (fun a => Forall row_shape (result a))).
  intros a b _. apply Hf.
Qed.

Lemma lineStep_row_shape (acc : LineAcc) (part : Change) :
  Forall row_shape (result acc) ->
  Forall row_shape (result (lineStep acc part)).
Proof.
  intro H. unfold lineStep.
  destruct (negb (added part) && negb (removed part)).
  - apply (push_row_shape pushUnchanged); [|exact H].
    intros a il Ha. unfold pushUnchanged. destruct (skipped _ il); [exact Ha|].
    cbn [result]. apply Forall_app. split; [exact Ha|].
    repeat constructor.
  - destruct (removed part).
    + apply (push_row_shape pushRemoved); [|exact H].
      intros a il Ha. unfold pushRemoved. destruct (skipped _ il); [exact Ha|].
      cbn [result]. apply Forall_app. split; [exact Ha|].
      repeat constructor.
    + destruct (added part); [|exact H].
      apply (push_row_shape pushAdded); [|exact H].
      intros a il Ha. unfold pushAdded. destruct (skipped _ il); [exact Ha|].
      cbn [result]. apply Forall_app. split; [exact Ha|].
      repeat constructor.
Qed.

(** Whatever the line diff reports, no row is of kind [modified]; removed
    rows have [text2 = ""] and [lineNumber2 = -1], added rows have
    [text1 = ""] and [lineNumber1 = -1]. *)
Lemma createLineDiff_row_shape
    (diffLines : jsstring -> jsstring -> list Change) (t1 t2 : jsstring) :
  Forall row_shape (createLineDiff diffLines t1 t2).
Proof.
  unfold createLineDiff, lineDiffOfParts.
  apply (fold_left_invariant lineStep (fun a => Forall row_shape (result a))).
  - intros a b _. apply lineStep_row_shape.
  - constructor.
Qed.

(** C6 (evaluation). For a removed line "a" immediately followed by an
    added line "b", the rows are a [removed] row (1, -1, "a", "") and an
    [added] row (-1, 1, "", "b"): two rows, none of kind [modified], none
    with both texts. *)
Theorem C6_replaced_line_gives_two_rows :
  lineDiffOfParts replacedLine
  = [ {| lineNumber1 := 1; lineNumber2 := -1;
         text1 := [97%N]; text2 := []; type := removed_line |};
      {| lineNumber1 := -1; lineNumber2 := 1;
         text1 := []; text2 := [98%N]; type := added_line |} ]
  /\ ~ In modified (map type (lineDiffOfParts replacedLine)).
Proof.
  split; [reflexivity|].
  vm_compute. intros [H|[H|[]]]; discriminate H.
Qed.

(** ** The sanitizer *)

Lemma sanitize_map (s : jsstring) :
  sanitizeTextForWinAnsi s = map sanitized_code_unit s.
Proof.
  induction s as [|ch s IH]; [reflexivity|].
  cbn [sanitizeTextForWinAnsi map]. rewrite IH.
  unfold sanitized_code_unit, replacer, placeholder.
  destruct (in_class ch); [|reflexivity].
  destruct (ch =? ARROWHEAD)%N; reflexivity.
Qed.

Lemma surrogates_in_class (cp : N) :
  (0x10000 <= cp <= 0x10FFFF)%N ->
  utf16 [cp] = [ (0xD800 + (cp - 0x10000) / 0x400)%N;
                 (0xDC00 + (cp - 0x10000) mod 0x400)%N ]
  /\ (0xD800 <= 0xD800 + (cp - 0x10000) / 0x400 <= 0xDBFF)%N
  /\ (0xDC00 <= 0xDC00 + (cp - 0x10000) mod 0x400 <= 0xDFFF)%N.
Proof.
  intros [Hlo Hhi]. unfold utf16, utf16_of_code_point. cbn [flat_map].
  destruct (N.ltb_spec cp 0x10000) as [H|_]; [lia|].
  rewrite app_nil_r. split; [reflexivity|].
  assert (Hq : ((cp - 0x10000) / 0x400 < 0x400)%N).
  { apply N.Div0.div_lt_upper_bound. lia. }
  assert (Hr : ((cp - 0x10000) mod 0x400 < 0x400)%N).
  { apply N.mod_lt. lia. }
  revert Hq Hr.
  generalize ((cp - 0x10000) / 0x400)%N, ((cp - 0x10000) mod 0x400)%N.
  intros q r Hq Hr. lia.
Qed.


(* ================================================================= *)
(** * Further properties *)

(** ** [escapeHtml] *)

Lemma replaceAll_flat_map (c : N) (by_ s : jsstring) :
  replaceAll c by_ s
  = flat_map (fun ch => if (ch =? c)%N then by_ else [ch]) s.
Proof. induction s as [|ch s IH]; simpl; [reflexivity|]. now rewrite IH. Qed.

Lemma flat_map_flat_map {A B C : Type} (f : B -> list C) (g : A -> list B)
    (l : list A) :
  flat_map f (flat_map g l) = flat_map (fun a => flat_map f (g a)) l.
Proof.
  induction l as [|a l IH]; simpl; [reflexivity|].
  now rewrite flat_map_app, IH.
Qed.

(** The five passes amount to one pass that rewrites each character on
    its own: no pass touches what an earlier pass has put in. *)
Lemma escapeHtml_flat_map (s : jsstring) :
  escapeHtml s = flat_map escapeChar s.
Proof.
  unfold escapeHtml. rewrite !replaceAll_flat_map, !flat_map_flat_map.
  apply flat_map_ext. intro ch. unfold escapeChar.
  destruct (N.eqb_spec ch AMP) as [->|H1]; [reflexivity|].
  destruct (N.eqb_spec ch LT) as [->|H2]; [reflexivity|].
  destruct (N.eqb_spec ch GT) as [->|H3]; [reflexivity|].
  destruct (N.eqb_spec ch QUOT) as [->|H4]; [reflexivity|].
  destruct (N.eqb_spec ch APOS) as [->|H5]; [reflexivity|].
  cbn [flat_map app].
  apply N.eqb_neq in H1, H2, H3, H4, H5.
  rewrite ?H1; cbn [flat_map app]. rewrite ?H2; cbn [flat_map app].
  rewrite ?H3; cbn [flat_map app]. rewrite ?H4; cbn [flat_map app].
  rewrite ?H5. reflexivity.
Qed.

Lemma escapeHtml_app (s t : jsstring) :
  escapeHtml (s ++ t) = escapeHtml s ++ escapeHtml t.
Proof. rewrite !escapeHtml_flat_map. apply flat_map_app. Qed.

Lemma escapeChar_no_markup (ch : N) :
  Forall (fun c => is_markup c = false) (escapeChar ch).
Proof.
  unfold escapeChar.
  destruct (N.eqb_spec ch AMP); [repeat constructor|].
  destruct (N.eqb_spec ch LT) as [|H2]; [repeat constructor|].
  destruct (N.eqb_spec ch GT) as [|H3]; [repeat constructor|].
  destruct (N.eqb_spec ch QUOT) as [|H4]; [repeat constructor|].
  destruct (N.eqb_spec ch APOS) as [|H5]; [repeat constructor|].
  constructor; [|constructor]. unfold is_markup.
  apply N.eqb_neq in H2, H3, H4, H5. now rewrite H2, H3, H4, H5.
Qed.

(** The codes of the characters are prefix-free. *)
Lemma escapeChar_prefix_free (a b : N) (u v : jsstring) :
  escapeChar a ++ u = escapeChar b ++ v -> a = b /\ u = v.
Proof.
  unfold escapeChar, AMP, LT, GT, QUOT, APOS.
  repeat match goal with
         | |- context [N.eqb ?p ?q] => destruct (N.eqb_spec p q); [subst|]
         end;
    intro H; simpl in H; inversion H; subst;
    try (split; reflexivity); congruence.
Qed.

Lemma escapeChar_nonempty (a : N) (u : jsstring) : escapeChar a ++ u <> [].
Proof.
  unfold escapeChar.
  repeat match goal with
         | |- context [N.eqb ?p ?q] => destruct (N.eqb_spec p q)
         end; discriminate.
Qed.

(** X1. [escapeHtml] rewrites every character on its own, whatever stands
    around it: the result is the concatenation of the characters' codes
    ([&amp;], [&lt;], [&gt;], [&quot;], [&#039;], or the character
    itself), although it is computed in five successive passes; hence it
    also distributes over concatenation. *)
Theorem X1_escapeHtml_characterwise (s t : jsstring) :
  escapeHtml s = flat_map escapeChar s
  /\ escapeHtml (s ++ t) = escapeHtml s ++ escapeHtml t.
Proof. split; [apply escapeHtml_flat_map | apply escapeHtml_app]. Qed.

Lemma escapeHtml_markup_free (s : jsstring) :
  Forall (fun ch => is_markup ch = false) (escapeHtml s).
Proof.
  rewrite escapeHtml_flat_map.
  induction s as [|ch s IH]; simpl; [constructor|].
  apply Forall_app. split; [apply escapeChar_no_markup | exact IH].
Qed.

(** X2. The escaped text contains none of the characters that open or
    close a tag or an attribute value: no less-than sign, no greater-than
    sign, no double quote and no apostrophe. *)
Theorem X2_escapeHtml_no_markup (s : jsstring) :
  Forall (fun ch => is_markup ch = false) (escapeHtml s).
Proof. apply escapeHtml_markup_free. Qed.

(** X3. [escapeHtml] loses nothing: two texts with the same escaped form
    are the same text. *)
Theorem X3_escapeHtml_injective (s t : jsstring) :
  escapeHtml s = escapeHtml t -> s = t.
Proof.
  rewrite !escapeHtml_flat_map. revert t.
  induction s as [|a s IH]; intros [|b t] H; simpl in H.
  - reflexivity.
  - symmetry in H. now apply escapeChar_nonempty in H.
  - now apply escapeChar_nonempty in H.
  - apply escapeChar_prefix_free in H. destruct H as [-> H].
    f_equal. now apply IH.
Qed.

(** X3 at the text [<b>]. *)
Lemma X3_escapeHtml_injective_witness :
  escapeHtml (lit "<b>") = lit "&lt;b&gt;" /\ lit "<b>" = lit "<b>".
Proof.
  split; [reflexivity|].
  apply (X3_escapeHtml_injective (lit "<b>") (lit "<b>")). reflexivity.
Defined.

Lemma escapeChar_cases (a : N) :
  (is_special a = false /\ escapeChar a = [a])
  \/ (is_special a = true /\ (4 <= length (escapeChar a))%nat).
Proof.
  unfold escapeChar, is_special.
  destruct (N.eqb_spec a AMP); [right; split; [reflexivity | simpl; lia]|].
  destruct (N.eqb_spec a LT); [right; split; [reflexivity | simpl; lia]|].
  destruct (N.eqb_spec a GT); [right; split; [reflexivity | simpl; lia]|].
  destruct (N.eqb_spec a QUOT); [right; split; [reflexivity | simpl; lia]|].
  destruct (N.eqb_spec a APOS); [right; split; [reflexivity | simpl; lia]|].
  left. split; reflexivity.
Qed.

Lemma escape_length_ge (s : jsstring) :
  (length s <= length (flat_map escapeChar s))%nat.
Proof.
  induction s as [|a s IH]; simpl; [lia|]. rewrite length_app.
  destruct (escapeChar_cases a) as [[_ E]|[_ L]]; [rewrite E; simpl|]; lia.
Qed.

(** X4. Exactly the texts without any of the five special characters are
    left unchanged by [escapeHtml]; every other text grows. *)
Theorem X4_escapeHtml_fixes_plain_text (s : jsstring) :
  (escapeHtml s = s <-> forallb (fun ch => negb (is_special ch)) s = true)
  /\ (length s <= length (escapeHtml s))%nat.
Proof.
  rewrite escapeHtml_flat_map. split; [|apply escape_length_ge].
  induction s as [|a s IH]; [split; reflexivity|].
  cbn [flat_map forallb].
  destruct (escapeChar_cases a) as [[Hs E]|[Hs L]]; rewrite Hs; cbn [negb andb].
  - rewrite E. cbn [app]. rewrite <- IH. split.
    + intro H. now injection H.
    + intro H. now rewrite H.
  - split; [|discriminate]. intro H.
    apply (f_equal (@length N)) in H. rewrite length_app in H.
    pose proof (escape_length_ge s). simpl in H. lia.
Qed.

(** ** [highlightWordDifferences] *)

Lemma highlightStep_fold (parts : list Change) :
  forall acc,
    html1 (fold_left highlightStep parts acc)
    = html1 acc ++ flat_map leftHtml parts
    /\ html2 (fold_left highlightStep parts acc)
       = html2 acc ++ flat_map rightHtml parts.
Proof.
  induction parts as [|p parts IH]; intro acc; cbn [fold_left flat_map].
  - now rewrite !app_nil_r.
  - destruct (IH (highlightStep acc p)) as [E1 E2]. rewrite E1, E2.
    unfold highlightStep, leftHtml, rightHtml.
    destruct (removed p); [|destruct (added p)]; cbn [html1 html2];
      rewrite ?app_nil_r, <- ?app_assoc; split; reflexivity.
Qed.

Lemma highlightParts_columns (parts : list Change) :
  html1 (highlightParts parts) = flat_map leftHtml parts
  /\ html2 (highlightParts parts) = flat_map rightHtml parts.
Proof.
  unfold highlightParts.
  destruct (highlightStep_fold parts {| html1 := []; html2 := [] |})
    as [E1 E2].
  now rewrite E1, E2.
Qed.

Lemma escapeHtml_concat (ss : list jsstring) :
  escapeHtml (concat ss) = concat (map escapeHtml ss).
Proof.
  induction ss as [|s ss IH]; [reflexivity|].
  simpl. now rewrite escapeHtml_app, IH.
Qed.

(** X5. When the word diff removes nothing and its parts other than the
    added ones spell the first text, the left column is just the escaped
    first text, without any markup; likewise, when it adds nothing and
    its parts other than the removed ones spell the second text, the
    right column is the escaped second text. *)
Theorem X5_highlight_untouched_side
    (diffWords : jsstring -> jsstring -> list Change)
    (text1 text2 : jsstring) :
  (Forall (fun p => removed p = false) (diffWords text1 text2) ->
   concat (map value (filter inFirst (diffWords text1 text2))) = text1 ->
   html1 (highlightWordDifferences diffWords text1 text2)
   = escapeHtml text1)
  /\ (Forall (fun p => added p = false) (diffWords text1 text2) ->
      concat (map value (filter inSecond (diffWords text1 text2))) = text2 ->
      html2 (highlightWordDifferences diffWords text1 text2)
      = escapeHtml text2).
Proof.
  unfold highlightWordDifferences.
  destruct (highlightParts_columns (diffWords text1 text2)) as [E1 E2].
  rewrite E1, E2. clear E1 E2.
  generalize (diffWords text1 text2) as parts. intro parts. split.
  - intros Hno <-. rewrite escapeHtml_concat.
    induction Hno as [|p parts Hp _ IH]; [reflexivity|].
    cbn [flat_map filter]. unfold leftHtml at 1, inFirst at 1. rewrite Hp.
    cbn [orb]. destruct (added p); cbn [negb map concat app];
      now rewrite IH.
  - intros Hno <-. rewrite escapeHtml_concat.
    induction Hno as [|p parts Hp _ IH]; [reflexivity|].
    cbn [flat_map filter]. unfold rightHtml at 1, inSecond at 1. rewrite Hp.
    cbn [orb]. destruct (removed p); cbn [negb map concat app];
      now rewrite IH.
Qed.

(** X5 at Scenario A, where "there " is inserted into "Hello world". *)
Lemma X5_highlight_untouched_side_witness :
  html1 (highlightWordDifferences (fun _ _ => partsA) (lit "Hello world")
           (lit "Hello there world"))
  = escapeHtml (lit "Hello world").
Proof.
  apply (proj1 (X5_highlight_untouched_side (fun _ _ => partsA)
                  (lit "Hello world") (lit "Hello there world"))).
  - repeat constructor.
  - reflexivity.
Defined.

Lemma occurrences_app (c : N) (s t : jsstring) :
  occurrences c (s ++ t) = (occurrences c s + occurrences c t)%nat.
Proof. apply count_occ_app. Qed.

Lemma occurrences_escapeHtml (s : jsstring) :
  occurrences LT (escapeHtml s) = 0%nat
  /\ occurrences GT (escapeHtml s) = 0%nat.
Proof.
  pose proof (escapeHtml_markup_free s) as H.
  unfold occurrences. induction H as [|ch l Hch _ IH]; [split; reflexivity|].
  unfold is_markup in Hch.
  apply orb_false_elim in Hch. destruct Hch as [Hch _].
  apply orb_false_elim in Hch. destruct Hch as [Hch _].
  apply orb_false_elim in Hch. destruct Hch as [H1 H2].
  apply N.eqb_neq in H1, H2. destruct IH as [IH1 IH2].
  split; rewrite count_occ_cons_neq; assumption.
Qed.

Lemma occurrences_span (inner : jsstring) :
  occurrences LT (span "removed-word" inner)
  = (2 + occurrences LT inner)%nat
  /\ occurrences LT (span "added-word" inner)
     = (2 + occurrences LT inner)%nat.
Proof.
  unfold span. rewrite !occurrences_app.
  split; vm_compute (occurrences LT (lit _));
    vm_compute (occurrences LT [QUOT]); lia.
Qed.

(** X6. Text can never open a tag in the highlighted columns: the
    less-than signs of the left column are exactly those of the spans
    around the removed parts, two per part, and those of the right column
    are exactly those of the spans around the added parts. *)
Theorem X6_highlight_only_own_tags
    (diffWords : jsstring -> jsstring -> list Change)
    (text1 text2 : jsstring) :
  occurrences LT (html1 (highlightWordDifferences diffWords text1 text2))
  = (2 * length (filter removed (diffWords text1 text2)))%nat
  /\ occurrences LT (html2 (highlightWordDifferences diffWords text1 text2))
     = (2 * length (filter (fun p => added p && negb (removed p))
                      (diffWords text1 text2)))%nat.
Proof.
  unfold highlightWordDifferences.
  destruct (highlightParts_columns (diffWords text1 text2)) as [E1 E2].
  rewrite E1, E2. clear E1 E2.
  generalize (diffWords text1 text2) as parts.
  induction parts as [|p parts [IH1 IH2]]; [split; reflexivity|].
  cbn [flat_map filter]. rewrite !occurrences_app, IH1, IH2.
  unfold leftHtml, rightHtml.
  destruct (occurrences_span (escapeHtml (value p))) as [S1 S2].
  destruct (occurrences_escapeHtml (value p)) as [Z1 _].
  destruct (removed p), (added p); cbn [andb negb length];
    rewrite ?S1, ?S2, ?Z1; cbn [occurrences count_occ]; split; lia.
Qed.

(** ** More on the segment construction *)

(** The loop over the indices is the recursion over the parts, whatever
    flags the parts carry. *)
Lemma segStep_fold_scan (suf : list Change) :
  forall (pre : list Change) (acc : SegAcc),
    segments
      (fold_left (segStep (pre ++ suf))
         (map Z.of_nat (seq (length pre) (length suf))) acc)
    = segments acc ++ scan (last_error pre) (pos2 acc) suf.
Proof.
  induction suf as [|p rest IH]; intros pre acc.
  - simpl. now rewrite app_nil_r.
  - cbn [length seq map fold_left].
    assert (Hrew : pre ++ p :: rest = (pre ++ [p]) ++ rest)
      by now rewrite <- app_assoc.
    assert (Hlen : S (length pre) = length (pre ++ [p]))
      by (rewrite length_app; simpl; lia).
    assert (Hlast : last_error (pre ++ [p]) = Some p)
      by (unfold last_error; now rewrite rev_app_distr).
    unfold segStep at 2.
    rewrite at_index_middle, at_index_next, at_index_prev.
    rewrite Hrew, Hlen. cbn [scan].
    destruct (added p); [|destruct (removed p)];
      rewrite IH, Hlast; cbn [segments pos2];
      rewrite <- ?app_assoc; reflexivity.
Qed.

Lemma segmentsOfParts_scan (parts : list Change) :
  segmentsOfParts parts = scan None 0 parts.
Proof.
  unfold segmentsOfParts, indices.
  exact (segStep_fold_scan parts [] {| segments := []; pos2 := 0 |}).
Qed.

Lemma scan_chained (parts : list Change) :
  forall prev pos2,
    seg_chained pos2 (scan prev pos2 parts)
    /\ Forall (fun s => seg_end s
                        <= pos2 + strlen (concat (map value
                                                    (filter inSecond parts))))
         (scan prev pos2 parts).
Proof.
  induction parts as [|p parts IH]; intros prev pos2; [split; constructor|].
  cbn [scan filter]. unfold inSecond at 1.
  pose proof (strlen_nonneg (value p)) as Hv.
  pose proof (strlen_nonneg (concat (map value (filter inSecond parts))))
    as Hrest.
  destruct (added p); [|destruct (removed p)]; cbn [orb negb map concat].
  - destruct (IH (Some p) (pos2 + strlen (value p))) as [C F].
    rewrite strlen_app. split.
    + cbn [seg_chained seg_start seg_end]. repeat split; [lia|lia|exact C].
    + constructor; [cbn [seg_end]; lia|].
      eapply Forall_impl; [|exact F]. intros s Hs. cbv beta in Hs. lia.
  - apply IH.
  - destruct (IH (Some p) (pos2 + strlen (value p))) as [C F].
    rewrite strlen_app. split.
    + clear F. destruct (scan (Some p) (pos2 + strlen (value p)) parts)
        as [|s segs]; [constructor|].
      cbn [seg_chained] in *. destruct C as (C1 & C2 & C3).
      repeat split; [lia|lia|exact C3].
    + eapply Forall_impl; [|exact F]. intros s Hs. cbv beta in Hs. lia.
Qed.

Lemma seg_chained_adjacent (segs : list Segment) :
  forall lo i a b,
    seg_chained lo segs ->
    nth_error segs i = Some a -> nth_error segs (S i) = Some b ->
    seg_end a <= seg_start b.
Proof.
  induction segs as [|c segs IH]; intros lo i a b H Ha Hb.
  - destruct i; discriminate.
  - destruct H as (H1 & H2 & H3). destruct i as [|i].
    + simpl in Ha. injection Ha as ->.
      destruct segs as [|d segs]; [discriminate|].
      simpl in Hb. injection Hb as ->. simpl in H3. tauto.
    + simpl in Ha. change (nth_error segs (S i) = Some b) in Hb. eauto.
Qed.

Lemma seg_chained_bounds (segs : list Segment) :
  forall lo s,
    seg_chained lo segs -> In s segs ->
    lo <= seg_start s /\ seg_start s <= seg_end s.
Proof.
  induction segs as [|c segs IH]; intros lo s H Hin; [contradiction|].
  destruct H as (H1 & H2 & H3). destruct Hin as [->|Hin]; [tauto|].
  destruct (IH _ _ H3 Hin). lia.
Qed.

(** X7. The segments come out in increasing order and never overlap: each
    one starts at or after offset 0 and at or after the end of the one
    before it, none has a negative length, and none reaches beyond the
    total length of the parts that belong to the second text. *)
Theorem X7_segments_ordered
    (diffWords : jsstring -> jsstring -> list Change) (t1 t2 : jsstring) :
  let segs := computeAddedAndModifiedSegments diffWords t1 t2 in
  (forall i a b,
      nth_error segs i = Some a -> nth_error segs (S i) = Some b ->
      seg_end a <= seg_start b)
  /\ (forall s, In s segs ->
        0 <= seg_start s <= seg_end s
        /\ seg_end s
           <= strlen (concat (map value
                                (filter inSecond (diffWords t1 t2))))).
Proof.
  intro segs. subst segs. unfold computeAddedAndModifiedSegments.
  rewrite segmentsOfParts_scan.
  destruct (scan_chained (diffWords t1 t2) None 0) as [C F]. split.
  - intros i a b. now apply seg_chained_adjacent with (1 := C).
  - intros s Hin. split.
    + now apply seg_chained_bounds with (1 := C).
    + rewrite Forall_forall in F. specialize (F s Hin). lia.
Qed.

(** X7 at Scenario B, whose only segment is 6..11 out of 11 characters. *)
Lemma X7_segments_ordered_witness :
  0 <= 6 <= 11 /\ 11 <= 11.
Proof.
  destruct (X7_segments_ordered (fun _ _ => partsB) [] []) as [_ H].
  apply (H {| seg_start := 6; seg_end := 11; kind := KModified |}).
  left. reflexivity.
Defined.

(** X8. There is one segment per added part, in the order of the parts,
    and each segment is as long as the value of its part. *)
Theorem X8_segment_lengths
    (diffWords : jsstring -> jsstring -> list Change) (t1 t2 : jsstring) :
  map (fun s => seg_end s - seg_start s)
    (computeAddedAndModifiedSegments diffWords t1 t2)
  = map (fun p => strlen (value p)) (filter added (diffWords t1 t2)).
Proof.
  unfold computeAddedAndModifiedSegments. rewrite segmentsOfParts_scan.
  generalize (@None Change) as prev. generalize 0 as pos2.
  induction (diffWords t1 t2) as [|p parts IH]; intros pos2 prev;
    [reflexivity|].
  cbn [scan filter].
  destruct (added p); [|destruct (removed p)]; cbn [map seg_start seg_end];
    rewrite ?IH; [f_equal; lia | reflexivity | reflexivity].
Qed.

Lemma substring_middle (pre v rest : jsstring) :
  substring (pre ++ v ++ rest) (strlen pre) (strlen pre + strlen v) = v.
Proof.
  unfold substring, strlen.
  replace (Z.to_nat (Z.of_nat (length pre) + Z.of_nat (length v)
                     - Z.of_nat (length pre))) with (length v) by lia.
  rewrite Nat2Z.id, skipn_app, skipn_all, Nat.sub_diag. cbn [skipn app].
  rewrite firstn_app, firstn_all, Nat.sub_diag. cbn [firstn].
  now rewrite app_nil_r.
Qed.

Lemma scan_substrings (parts : list Change) :
  forall prev pre,
    map (fun s =>
           substring (pre ++ concat (map value (filter inSecond parts)))
             (seg_start s) (seg_end s))
      (scan prev (strlen pre) parts)
    = map value (filter added parts).
Proof.
  induction parts as [|p parts IH]; intros prev pre; [reflexivity|].
  cbn [scan filter]. unfold inSecond at 1.
  destruct (added p); [|destruct (removed p)]; cbn [orb negb map concat].
  - cbn [seg_start seg_end]. rewrite substring_middle. f_equal.
    rewrite <- strlen_app. rewrite app_assoc. apply IH.
  - apply IH.
  - rewrite <- strlen_app. rewrite app_assoc. apply IH.
Qed.

(** X9. Offset conservation: when the parts of the word diff other than
    the purely removed ones spell the second text, the characters of the
    second text between [start] and [end] of a segment are the value of
    the added part the segment was made for. *)
Theorem X9_offset_conservation
    (diffWords : jsstring -> jsstring -> list Change) (t1 t2 : jsstring) :
  concat (map value (filter inSecond (diffWords t1 t2))) = t2 ->
  map (fun s => substring t2 (seg_start s) (seg_end s))
    (computeAddedAndModifiedSegments diffWords t1 t2)
  = map value (filter added (diffWords t1 t2)).
Proof.
  unfold computeAddedAndModifiedSegments. rewrite segmentsOfParts_scan.
  generalize (diffWords t1 t2) as parts. intros parts H. subst t2.
  exact (scan_substrings parts None []).
Qed.

(** X9 at Scenario B: offsets 6..11 of "Alpha Gamma" read "Gamma". *)
Lemma X9_offset_conservation_witness :
  map (fun s => substring (lit "Alpha Gamma") (seg_start s) (seg_end s))
    (computeAddedAndModifiedSegments (fun _ _ => partsB) (lit "Alpha Beta")
       (lit "Alpha Gamma"))
  = [lit "Gamma"].
Proof.
  apply (X9_offset_conservation (fun _ _ => partsB) (lit "Alpha Beta")
           (lit "Alpha Gamma")).
  reflexivity.
Defined.

(** X10. When the word diff removes nothing, no segment is classified as
    modified: pure insertions are all marked as added. *)
Theorem X10_insertions_are_added
    (diffWords : jsstring -> jsstring -> list Change) (t1 t2 : jsstring) :
  Forall (fun p => removed p = false) (diffWords t1 t2) ->
  Forall (fun s => kind s = KAdded)
    (computeAddedAndModifiedSegments diffWords t1 t2).
Proof.
  unfold computeAddedAndModifiedSegments. rewrite segmentsOfParts_scan.
  assert (Hnone : and_removed (@None Change) = false) by reflexivity.
  revert Hnone.
  generalize (@None Change) as prev. generalize 0 as pos2.
  induction (diffWords t1 t2) as [|p parts IH]; intros pos2 prev Hprev Hall;
    [constructor|].
  inversion Hall as [|? ? Hp Hrest]; subst.
  cbn [scan]. rewrite Hp.
  destruct (added p).
  - constructor.
    + cbn [kind]. rewrite Hprev.
      destruct parts as [|q parts]; [reflexivity|].
      inversion Hrest as [|? ? Hq _]; subst. cbn [hd_error and_removed].
      now rewrite Hq.
    + apply IH; [exact Hp|exact Hrest].
  - apply IH; [exact Hp|exact Hrest].
Qed.

(** X10 at Scenario A. *)
Lemma X10_insertions_are_added_witness :
  Forall (fun s => kind s = KAdded)
    (computeAddedAndModifiedSegments (fun _ _ => partsA) (lit "Hello world")
       (lit "Hello there world")).
Proof.
  apply (X10_insertions_are_added (fun _ _ => partsA)).
  repeat constructor.
Defined.

(** ** More on the layout collection *)

Lemma substring_prefix (t u : jsstring) (a b : Z) :
  0 <= a -> b <= strlen t -> substring (t ++ u) a b = substring t a b.
Proof.
  unfold substring, strlen. intros Ha Hb.
  destruct (Z.le_gt_cases a b) as [Hab|Hab].
  - rewrite skipn_app.
    replace (Z.to_nat a - length t)%nat with 0%nat by lia.
    cbn [skipn]. rewrite firstn_app, length_skipn.
    replace (Z.to_nat (b - a) - (length t - Z.to_nat a))%nat with 0%nat
      by lia.
    cbn [firstn]. now rewrite app_nil_r.
  - replace (Z.to_nat (b - a)) with 0%nat by lia. reflexivity.
Qed.

Lemma run_ok_extend (t u : jsstring) (b : TextItemBox) (it : TextItem) :
  run_ok t b it -> run_ok (t ++ u) b it.
Proof.
  intros (H0 & H1 & H2). unfold run_ok. rewrite strlen_app.
  pose proof (strlen_nonneg u). repeat split; [lia|lia|].
  now rewrite substring_prefix.
Qed.

Lemma Forall2_run_ok_extend (t u : jsstring) bs its :
  Forall2 (run_ok t) bs its -> Forall2 (run_ok (t ++ u)) bs its.
Proof.
  induction 1; constructor; [now apply run_ok_extend|assumption].
Qed.

Lemma pushItem_fold_runs pidx pw ph rx ry (its : list TextItem) :
  forall acc l,
    Forall2 (run_ok (text acc)) (items acc) l ->
    Forall2 (run_ok (text (fold_left (pushItem pidx pw ph rx ry) its acc)))
      (items (fold_left (pushItem pidx pw ph rx ry) its acc)) (l ++ its).
Proof.
  induction its as [|it its IH]; intros acc l H; cbn [fold_left].
  - now rewrite app_nil_r.
  - replace (l ++ it :: its) with ((l ++ [it]) ++ its)
      by now rewrite <- app_assoc.
    apply IH. unfold pushItem. cbn [items text].
    apply Forall2_app; [now apply Forall2_run_ok_extend|].
    constructor; [|constructor].
    unfold run_ok. cbn [start end_].
    pose proof (strlen_nonneg (text acc)).
    repeat split; [lia|lia|].
    rewrite strlen_app.
    rewrite <- (app_nil_r (text acc ++ str_or_empty it ++ [SPACE])).
    rewrite <- app_assoc. apply substring_middle.
Qed.

Lemma collect_fold_runs (l : list (nat * SrcPage)) :
  forall acc its,
    Forall2 (run_ok (text acc)) (items acc) its ->
    Forall2 (run_ok (text (fold_left collectPage l acc)))
      (items (fold_left collectPage l acc))
      (its ++ flat_map page_items (map snd l)).
Proof.
  induction l as [|[pidx page] l IH]; intros acc its H;
    cbn [fold_left map snd flat_map].
  - now rewrite app_nil_r.
  - rewrite app_assoc. apply IH.
    rewrite collectPage_unfold. cbv zeta. cbn [items text].
    apply Forall2_run_ok_extend.
    now apply pushItem_fold_runs.
Qed.

(** X11. The offsets of a run index the assembled text of the layout:
    the [i]-th run lies within that text, and the characters from its
    [start] to its [end] are the string of the [i]-th text item followed
    by one space. *)
Theorem X11_run_covers_its_string (file : PdfFile) (i : nat)
    (b : TextItemBox) (it : TextItem) :
  nth_error (items (collectSecondTextLayout file)) i = Some b ->
  nth_error (allItems file) i = Some it ->
  0 <= start b
  /\ end_ b <= strlen (text (collectSecondTextLayout file))
  /\ substring (text (collectSecondTextLayout file)) (start b) (end_ b)
     = str_or_empty it ++ [SPACE].
Proof.
  intros Hb Hit.
  assert (H : Forall2 (run_ok (text (collectSecondTextLayout file)))
                (items (collectSecondTextLayout file)) (allItems file)).
  { unfold collectSecondTextLayout, allItems.
    rewrite <- (indexed_snd file) at 3.
    apply (collect_fold_runs (indexed file) emptyLayout []). constructor. }
  exact (Forall2_nth_error _ _ _ H i b it Hb Hit).
Qed.

(** X11 at the two-page example: offsets 4..6 read "b ". *)
Lemma X11_run_covers_its_string_witness :
  substring (text (collectSecondTextLayout twoPages)) 4 6 = [98; 32]%N.
Proof.
  destruct (X11_run_covers_its_string twoPages 1 _ _ eq_refl eq_refl)
    as (_ & _ & H).
  exact H.
Defined.

(** X12. The layout records the pdf-lib size of every page, in page
    order, and puts every run on the page its text item comes from. *)
Theorem X12_layout_pages (file : PdfFile) :
  pageHeights (collectSecondTextLayout file) = map page_height file
  /\ pageWidths (collectSecondTextLayout file) = map page_width file
  /\ map pageIndex (items (collectSecondTextLayout file)) = itemPages file.
Proof.
  unfold collectSecondTextLayout, itemPages.
  assert (G : forall l acc,
    pageHeights (fold_left collectPage l acc)
    = pageHeights acc ++ map page_height (map snd l)
    /\ pageWidths (fold_left collectPage l acc)
       = pageWidths acc ++ map page_width (map snd l)
    /\ map pageIndex (items (fold_left collectPage l acc))
       = map pageIndex (items acc)
         ++ flat_map (fun ip => repeat (fst ip) (length (page_items (snd ip))))
              l).
  { induction l as [|[pidx page] l IH]; intro acc;
      cbn [fold_left map snd fst flat_map].
    - now rewrite !app_nil_r.
    - destruct (IH (collectPage acc (pidx, page))) as (E1 & E2 & E3).
      rewrite E1, E2, E3. clear IH E1 E2 E3.
      rewrite collectPage_unfold. cbv zeta.
      cbn [items pageHeights pageWidths].
      assert (F : forall its a,
        pageHeights (fold_left
          (pushItem pidx (page_width page) (page_height page)
             (page_width page / viewport_width page)%Q
             (page_height page / viewport_height page)%Q) its a)
        = pageHeights a
        /\ pageWidths (fold_left
             (pushItem pidx (page_width page) (page_height page)
                (page_width page / viewport_width page)%Q
                (page_height page / viewport_height page)%Q) its a)
           = pageWidths a
        /\ map pageIndex (items (fold_left
             (pushItem pidx (page_width page) (page_height page)
                (page_width page / viewport_width page)%Q
                (page_height page / viewport_height page)%Q) its a))
           = map pageIndex (items a) ++ repeat pidx (length its)).
      { induction its as [|it its IHi]; intro a; cbn [fold_left length repeat].
        - now rewrite app_nil_r.
        - destruct (IHi (pushItem pidx (page_width page) (page_height page)
             (page_width page / viewport_width page)%Q
             (page_height page / viewport_height page)%Q a it))
            as (F1 & F2 & F3).
          rewrite F1, F2, F3. unfold pushItem.
          cbn [items pageHeights pageWidths].
          rewrite map_app, <- app_assoc. repeat split; reflexivity. }
      destruct (F (page_items page)
                  {| items := items acc; text := text acc;
                     pageHeights := pageHeights acc ++ [page_height page];
                     pageWidths := pageWidths acc ++ [page_width page] |})
        as (F1 & F2 & F3).
      rewrite F1, F2, F3. cbn [items pageHeights pageWidths].
      rewrite <- !app_assoc. repeat split; reflexivity. }
  destruct (G (indexed file) emptyLayout) as (E1 & E2 & E3).
  rewrite E1, E2, E3, indexed_snd. repeat split; reflexivity.
Qed.

Lemma pushItem_geometry pidx pw ph rx ry acc it :
  Forall (fun b => (0 <= y b)%Q /\ (1 <= width b)%Q) (items acc) ->
  Forall (fun b => (0 <= y b)%Q /\ (1 <= width b)%Q)
    (items (pushItem pidx pw ph rx ry acc it)).
Proof.
  intro H. unfold pushItem. cbn [items].
  apply Forall_app. split; [exact H|]. constructor; [|constructor].
  cbn [y width]. unfold yBottomPt. split; apply Q.le_max_l.
Qed.

Lemma layout_geometry (file : PdfFile) :
  Forall (fun b => (0 <= y b)%Q /\ (1 <= width b)%Q)
    (items (collectSecondTextLayout file)).
Proof.
  unfold collectSecondTextLayout.
  apply (fold_left_invariant _
           (fun acc => Forall (fun b => (0 <= y b)%Q /\ (1 <= width b)%Q)
                         (items acc))).
  - intros acc [pidx page] _ H.
    rewrite collectPage_unfold. cbv zeta. cbn [items].
    apply (fold_left_invariant _
             (fun acc => Forall (fun b => (0 <= y b)%Q /\ (1 <= width b)%Q)
                           (items acc))).
    + intros a b _. apply pushItem_geometry.
    + exact H.
  - constructor.
Qed.

(** X13. Every run of the layout has a vertical position of at least 0
    and a width of at least 1, whatever the transform and the size of its
    text item. *)
Theorem X13_run_geometry_clamped (file : PdfFile) :
  Forall (fun b => (0 <= y b)%Q /\ (1 <= width b)%Q)
    (items (collectSecondTextLayout file)).
Proof. apply layout_geometry. Qed.

(** X14. The assembled text of the layout is longer than the text of the
    fallback extraction by exactly one character for every page that has
    text, and the two are the same string exactly for the documents
    without any text item. *)
Theorem X14_layout_text_versus_fallback (file : PdfFile) :
  length (text (collectSecondTextLayout file))
  = (length (extractTextLocalFallback file) + nonEmptyPages file)%nat
  /\ (text (collectSecondTextLayout file) = extractTextLocalFallback file
      <-> nonEmptyPages file = 0%nat).
Proof.
  split; [apply layout_text_length | apply layout_text_eq_fallback_iff].
Qed.

(** ** More on the annotation renderer *)

Lemma frac_nonneg (a d : Z) :
  0 <= a -> 0 < d -> (0 <= inject_Z a / inject_Z d)%Q.
Proof.
  intros Ha Hd. apply Qle_shift_div_l.
  - change 0%Q with (inject_Z 0). rewrite <- Zlt_Qlt. exact Hd.
  - rewrite Qmult_0_l. change 0%Q with (inject_Z 0).
    rewrite <- Zle_Qle. exact Ha.
Qed.

Lemma frac_pos (a d : Z) :
  0 < a -> 0 < d -> (0 < inject_Z a / inject_Z d)%Q.
Proof.
  intros Ha Hd. apply Qlt_shift_div_l.
  - change 0%Q with (inject_Z 0). rewrite <- Zlt_Qlt. exact Hd.
  - rewrite Qmult_0_l. change 0%Q with (inject_Z 0).
    rewrite <- Zlt_Qlt. exact Ha.
Qed.

Lemma frac_sum_le_1 (a c d : Z) :
  a + c <= d -> 0 < d ->
  (inject_Z a / inject_Z d + inject_Z c / inject_Z d <= 1)%Q.
Proof.
  intros Hac Hd.
  assert (Hd' : (0 < inject_Z d)%Q).
  { change 0%Q with (inject_Z 0). rewrite <- Zlt_Qlt. exact Hd. }
  assert (E : (inject_Z a / inject_Z d + inject_Z c / inject_Z d
               == inject_Z (a + c) / inject_Z d)%Q).
  { rewrite inject_Z_plus. field. intro H0. rewrite H0 in Hd'.
    now apply Qlt_irrefl in Hd'. }
  rewrite E. apply Qle_shift_div_r; [exact Hd'|].
  rewrite Qmult_1_l. rewrite <- Zle_Qle. exact Hac.
Qed.

(** The rectangle of an overlapping pair lies within the horizontal
    extent of the run, for a run of positive offset extent and width. *)
Lemma highlightRect_within (seg : Segment) (b : TextItemBox) (pageH : Q) :
  start b < end_ b -> (1 <= width b)%Q ->
  Z.min (seg_end seg) (end_ b) > Z.max (seg_start seg) (start b) ->
  (x b <= rect_x (highlightRect seg b pageH))%Q
  /\ (rect_x (highlightRect seg b pageH)
      + rect_width (highlightRect seg b pageH) <= x b + width b)%Q
  /\ (0 < rect_width (highlightRect seg b pageH))%Q.
Proof.
  intros Hse Hw Hov. unfold highlightRect. cbn [rect_x rect_width].
  unfold fracStart, fracWidth, overlapEnd, overlapStart.
  rewrite (Z.max_r 1 (end_ b - start b)) by lia.
  set (oS := Z.max (seg_start seg) (start b)) in *.
  set (oE := Z.min (seg_end seg) (end_ b)) in *.
  pose proof (frac_nonneg (oS - start b) (end_ b - start b)
                ltac:(lia) ltac:(lia)) as H1.
  pose proof (frac_pos (oE - oS) (end_ b - start b)
                ltac:(lia) ltac:(lia)) as H2.
  pose proof (frac_sum_le_1 (oS - start b) (oE - oS) (end_ b - start b)
                ltac:(lia) ltac:(lia)) as H3.
  revert H1 H2 H3.
  generalize (inject_Z (oS - start b) / inject_Z (end_ b - start b))%Q.
  generalize (inject_Z (oE - oS) / inject_Z (end_ b - start b))%Q.
  intros fw fs H1 H2 H3. repeat split; nra.
Qed.

Lemma itemRects_In (seg : Segment) (it : TextItemBox) (k : nat) (h : Q)
    (r : Rect) :
  In r (itemRects seg it k h) ->
  pageIndex it = k
  /\ Z.min (seg_end seg) (end_ it) > Z.max (seg_start seg) (start it)
  /\ r = highlightRect seg it h.
Proof.
  unfold itemRects, overlapping, overlapEnd, overlapStart.
  destruct (Z.leb_spec (Z.min (seg_end seg) (end_ it))
              (Z.max (seg_start seg) (start it))) as [|Hgt];
    cbn [negb andb]; [contradiction|].
  destruct (Nat.eqb_spec (pageIndex it) k) as [E|]; [|contradiction].
  intros [<-|[]]. repeat split; [exact E|lia].
Qed.

Lemma rectsFor_In (segs : list Segment) (its : list TextItemBox)
    (k : nat) (h : Q) (r : Rect) :
  In r (rectsFor segs its k h) -> highlight_of segs its k h r.
Proof.
  unfold rectsFor. intro H.
  apply in_flat_map in H. destruct H as (seg & Hseg & H).
  apply in_flat_map in H. destruct H as (it & Hit & H).
  apply itemRects_In in H. destruct H as (E & Hov & ->).
  exists seg, it. repeat split; assumption.
Qed.

(** What is drawn on page [k] of the output, read from the input. *)
Lemma annotate_page (segs : list Segment) (file : PdfFile) :
  exists st,
    annotate segs file = Some st
    /\ forall k page,
         nth_error (outDoc st) k = Some page ->
         exists p,
           nth_error file k = Some p
           /\ size_height page = page_height p
           /\ drawn page
              = rectsFor segs (items (collectSecondTextLayout file)) k
                  (page_height p).
Proof.
  destruct (annotate_drawnOnto segs file) as (st & E & _ & L & D).
  exists st. split; [exact E|]. intros k page Hk.
  assert (Hlt : (k < length (load file))%nat).
  { rewrite <- L. apply nth_error_Some. congruence. }
  destruct (nth_error (load file) k) as [p0|] eqn:Hp0.
  2:{ apply nth_error_None in Hp0. lia. }
  destruct (D k p0 Hp0) as (page' & Hk' & F & Hd).
  assert (page' = page) by congruence. subst page'.
  unfold load in Hp0. rewrite nth_error_map in Hp0.
  destruct (nth_error file k) as [p|]; [|discriminate].
  injection Hp0 as <-. exists p. split; [reflexivity|].
  unfold pageFrame in F. cbn [size_width size_height content drawn] in *.
  split; [congruence|]. now rewrite Hd.
Qed.

(** X15. The renderer draws nothing but highlights: every rectangle found
    on a page of the annotated document is the rectangle of some segment
    and some run of the layout that overlap, the run lying on that very
    page. *)
Theorem X15_only_highlights_are_drawn
    (diffWords : jsstring -> jsstring -> list Change)
    (text1 text2 : jsstring) (fileSecond : PdfFile) :
  exists st,
    createAnnotatedSecondPdf diffWords text1 text2 fileSecond = Some st
    /\ forall k page r,
         nth_error (outDoc st) k = Some page -> In r (drawn page) ->
         highlight_of (computeAddedAndModifiedSegments diffWords text1 text2)
           (items (collectSecondTextLayout fileSecond))
           k (size_height page) r.
Proof.
  unfold createAnnotatedSecondPdf.
  destruct (annotate_page
              (computeAddedAndModifiedSegments diffWords text1 text2)
              fileSecond) as (st & E & H).
  exists st. split; [exact E|]. intros k page r Hk Hr.
  destruct (H k page Hk) as (p & _ & Hh & Hd).
  rewrite Hd in Hr. rewrite Hh. now apply rectsFor_In.
Qed.

(** X16. Every rectangle on the annotated document belongs to a run of
    the layout on that page: it begins between the run's left and right
    edges and is no wider than the run; its width is positive, its
    vertical position at least 0 and its height at least 2. *)
Theorem X16_drawn_rectangles_bounded
    (diffWords : jsstring -> jsstring -> list Change)
    (text1 text2 : jsstring) (fileSecond : PdfFile) :
  exists st,
    createAnnotatedSecondPdf diffWords text1 text2 fileSecond = Some st
    /\ forall k page r,
         nth_error (outDoc st) k = Some page -> In r (drawn page) ->
         (exists b,
             In b (items (collectSecondTextLayout fileSecond))
             /\ pageIndex b = k
             /\ (x b <= rect_x r)%Q
             /\ (rect_x r <= x b + width b)%Q
             /\ (rect_width r <= width b)%Q)
         /\ (0 < rect_width r)%Q
         /\ (0 <= rect_y r)%Q
         /\ (2 <= rect_height r)%Q.
Proof.
  unfold createAnnotatedSecondPdf.
  destruct (annotate_page
              (computeAddedAndModifiedSegments diffWords text1 text2)
              fileSecond) as (st & E & H).
  exists st. split; [exact E|]. intros k page r Hk Hr.
  destruct (H k page Hk) as (p & _ & Hh & Hd).
  rewrite Hd in Hr. apply rectsFor_In in Hr.
  destruct Hr as (seg & b & _ & Hb & Hpage & Hov & ->).
  assert (Hse : start b < end_ b).
  { now apply chained_nonempty with (1 := layout_offsets_ok fileSecond). }
  assert (Hw : (1 <= width b)%Q).
  { pose proof (layout_geometry fileSecond) as G.
    rewrite Forall_forall in G. now apply G. }
  destruct (highlightRect_within seg b (page_height p) Hse Hw Hov)
    as (B1 & B2 & B3).
  split; [exists b; repeat split; try assumption; lra|].
  split; [exact B3|].
  unfold highlightRect. cbn [rect_y rect_height]. split; apply Q.le_max_l.
Qed.

(** X17. A segment that covers a run entirely is highlighted over the
    whole width of the run: the rectangle starts at the run's [x] and is
    as wide as the run. *)
Theorem X17_full_cover (seg : Segment) (b : TextItemBox) (pageH : Q) :
  start b < end_ b ->
  seg_start seg <= start b -> end_ b <= seg_end seg ->
  (rect_x (highlightRect seg b pageH) == x b)%Q
  /\ (rect_width (highlightRect seg b pageH) == width b)%Q.
Proof.
  intros Hse H1 H2. unfold highlightRect. cbn [rect_x rect_width].
  unfold fracStart, fracWidth, overlapEnd, overlapStart.
  rewrite (Z.max_r 1 (end_ b - start b)) by lia.
  rewrite (Z.max_r (seg_start seg) (start b)) by lia.
  rewrite (Z.min_r (seg_end seg) (end_ b)) by lia.
  rewrite Z.sub_diag.
  assert (Hd : ~ (inject_Z (end_ b - start b) == 0)%Q).
  { intro H0. unfold Qeq in H0. simpl in H0. lia. }
  split; field; exact Hd.
Qed.

(** X17 at the run of Scenario C under a segment over 90..120. *)
Lemma X17_full_cover_witness :
  (rect_x (highlightRect coverSeg runC 800) == 50)%Q
  /\ (rect_width (highlightRect coverSeg runC 800) == 60)%Q.
Proof.
  apply (X17_full_cover coverSeg runC 800); reflexivity || discriminate.
Defined.

(** *** Counting the rectangles *)

Lemma nth_error_indexed {A : Type} (l : list A) (k : nat) :
  nth_error (indexed l) k = option_map (fun a => (k, a)) (nth_error l k).
Proof.
  unfold indexed.
  assert (G : forall s k,
    nth_error (combine (seq s (length l)) l) k
    = option_map (fun a => ((s + k)%nat, a)) (nth_error l k)).
  { induction l as [|a l IH]; intros s [|j]; simpl; try reflexivity.
    - now rewrite Nat.add_0_r.
    - rewrite IH. now rewrite Nat.add_succ_r. }
  apply (G 0%nat k).
Qed.

Lemma indexed_fst {A : Type} (l : list A) :
  map fst (indexed l) = seq 0 (length l).
Proof.
  unfold indexed. generalize 0%nat.
  induction l as [|a l IH]; intro n; simpl; [reflexivity|].
  now rewrite IH.
Qed.

Lemma list_sum_map_add {A : Type} (f g : A -> nat) (l : list A) :
  list_sum (map (fun a => (f a + g a)%nat) l)
  = (list_sum (map f l) + list_sum (map g l))%nat.
Proof. induction l as [|a l IH]; simpl; lia. Qed.

Lemma list_sum_map_zero {A : Type} (l : list A) :
  list_sum (map (fun _ => 0%nat) l) = 0%nat.
Proof. induction l; simpl; auto. Qed.

Lemma list_sum_exchange {A B : Type} (F : A -> B -> nat)
    (ks : list A) (l : list B) :
  list_sum (map (fun k => list_sum (map (F k) l)) ks)
  = list_sum (map (fun b => list_sum (map (fun k => F k b) ks)) l).
Proof.
  induction ks as [|k ks IH]; cbn [map list_sum fold_right].
  - now rewrite list_sum_map_zero.
  - rewrite (list_sum_map_add (F k)
               (fun b => list_sum (map (fun k0 => F k0 b) ks))).
    f_equal. exact IH.
Qed.

Lemma list_sum_ext {A : Type} (f g : A -> nat) (l : list A) :
  (forall a, In a l -> f a = g a) ->
  list_sum (map f l) = list_sum (map g l).
Proof.
  intro H. f_equal. apply map_ext_in. exact H.
Qed.

Lemma length_flat_map_sum {A B : Type} (f : A -> list B) (l : list A) :
  length (flat_map f l) = list_sum (map (fun a => length (f a)) l).
Proof.
  induction l as [|a l IH]; simpl; [reflexivity|].
  now rewrite length_app, IH.
Qed.

Lemma length_filter_sum {A : Type} (f : A -> bool) (l : list A) :
  length (filter f l)
  = list_sum (map (fun a => if f a then 1%nat else 0%nat) l).
Proof.
  induction l as [|a l IH]; simpl; [reflexivity|].
  destruct (f a); simpl; now rewrite IH.
Qed.

(** Among the page indices [s, s + n) exactly one is a given index of
    that range. *)
Lemma one_page_matches (pi : nat) :
  forall n s,
    list_sum (map (fun k => if Nat.eqb pi k then 1%nat else 0%nat) (seq s n))
    = if (s <=? pi)%nat && (pi <? s + n)%nat then 1%nat else 0%nat.
Proof.
  induction n as [|n IH]; intro s; cbn [seq map list_sum fold_right].
  - destruct (Nat.leb_spec s pi), (Nat.ltb_spec pi (s + 0)); simpl; lia.
  - rewrite IH.
    destruct (Nat.eqb_spec pi s), (Nat.leb_spec s pi),
      (Nat.leb_spec (S s) pi), (Nat.ltb_spec pi (S s + n)),
      (Nat.ltb_spec pi (s + S n)); simpl; lia.
Qed.

Lemma length_itemRects (seg : Segment) (it : TextItemBox) (k : nat) (h : Q) :
  length (itemRects seg it k h)
  = if overlapping seg it && Nat.eqb (pageIndex it) k then 1%nat else 0%nat.
Proof.
  unfold itemRects.
  now destruct (overlapping seg it && Nat.eqb (pageIndex it) k).
Qed.

(** Over all pages, a pair contributes one rectangle if it overlaps and
    none otherwise. *)
Lemma pair_drawn_once (seg : Segment) (it : TextItemBox) (file : PdfFile) :
  (pageIndex it < length file)%nat ->
  list_sum
    (map (fun ip => length (itemRects seg it (fst ip) (page_height (snd ip))))
       (indexed file))
  = if overlapping seg it then 1%nat else 0%nat.
Proof.
  intro Hlt.
  rewrite (list_sum_ext _
             (fun ip => if overlapping seg it && Nat.eqb (pageIndex it) (fst ip)
                        then 1%nat else 0%nat))
    by (intros; apply length_itemRects).
  destruct (overlapping seg it); cbn [andb].
  - rewrite <- (map_map fst
                 (fun k => if Nat.eqb (pageIndex it) k then 1%nat else 0%nat)).
    rewrite indexed_fst, one_page_matches.
    destruct (Nat.leb_spec 0 (pageIndex it)),
      (Nat.ltb_spec (pageIndex it) (0 + length file)); simpl; lia.
  - apply list_sum_map_zero.
Qed.

Lemma rects_total (segs : list Segment) (its : list TextItemBox)
    (file : PdfFile) :
  Forall (fun it => (pageIndex it < length file)%nat) its ->
  list_sum
    (map (fun ip => length (rectsFor segs its (fst ip) (page_height (snd ip))))
       (indexed file))
  = overlappingPairs segs its.
Proof.
  intro Hall. unfold rectsFor, overlappingPairs.
  rewrite (list_sum_ext _
    (fun ip => list_sum (map (fun seg =>
       list_sum (map (fun it =>
         length (itemRects seg it (fst ip) (page_height (snd ip)))) its))
       segs))).
  2:{ intros ip _. rewrite length_flat_map_sum.
      apply list_sum_ext. intros seg _. apply length_flat_map_sum. }
  rewrite list_sum_exchange.
  apply list_sum_ext. intros seg _.
  rewrite list_sum_exchange, length_filter_sum.
  apply list_sum_ext. intros it Hit.
  apply pair_drawn_once. rewrite Forall_forall in Hall. now apply Hall.
Qed.

(** X18. The annotated document carries exactly one rectangle for every
    pair of a segment and a run of the layout that overlap, and no other
    rectangle. *)
Theorem X18_one_rectangle_per_overlap
    (diffWords : jsstring -> jsstring -> list Change)
    (text1 text2 : jsstring) (fileSecond : PdfFile) :
  exists st,
    createAnnotatedSecondPdf diffWords text1 text2 fileSecond = Some st
    /\ length (allDrawn (outDoc st))
       = overlappingPairs
           (computeAddedAndModifiedSegments diffWords text1 text2)
           (items (collectSecondTextLayout fileSecond)).
Proof.
  unfold createAnnotatedSecondPdf.
  set (segs := computeAddedAndModifiedSegments diffWords text1 text2).
  destruct (annotate_page segs fileSecond) as (st & E & H).
  exists st. split; [exact E|].
  assert (L : length (outDoc st) = length fileSecond).
  { destruct (annotate_drawnOnto segs fileSecond) as (st' & E' & _ & L & _).
    assert (st' = st) by congruence. subst st'.
    rewrite L. unfold load. apply length_map. }
  assert (M : map drawn (outDoc st)
              = map (fun ip =>
                       rectsFor segs
                         (items (collectSecondTextLayout fileSecond))
                         (fst ip) (page_height (snd ip)))
                  (indexed fileSecond)).
  { apply nth_error_ext. intro k.
    rewrite !nth_error_map, nth_error_indexed.
    destruct (nth_error (outDoc st) k) as [page|] eqn:Hk.
    - destruct (H k page Hk) as (p & Hp & _ & Hd).
      rewrite Hp. cbn [option_map fst snd]. now rewrite Hd.
    - apply nth_error_None in Hk. rewrite L in Hk.
      apply nth_error_None in Hk. now rewrite Hk. }
  unfold allDrawn. rewrite length_flat_map_sum.
  rewrite <- (map_map drawn (@length Rect)), M, map_map.
  apply rects_total. apply layout_pageIndex.
Qed.

(** ** More on the line diff *)

Lemma numbered_push_next (f : DiffLine -> Z) rows idx r :
  numbered f rows idx -> f r = idx + 1 ->
  numbered f (rows ++ [r]) (idx + 1).
Proof.
  unfold numbered. cbv zeta. intros [Hi Hm] Hr.
  rewrite filter_app. cbn [filter].
  destruct (Z.eqb_spec (f r) (-1)) as [E|_]; [lia|]. cbn [negb].
  rewrite length_app, map_app, Hm. cbn [length map].
  rewrite Nat.add_1_r, seq_S, map_app. cbn [map].
  split; [lia|]. f_equal. f_equal. lia.
Qed.

Lemma numbered_push_none (f : DiffLine -> Z) rows idx r :
  numbered f rows idx -> f r = -1 -> numbered f (rows ++ [r]) idx.
Proof.
  unfold numbered. cbv zeta. intros [Hi Hm] Hr.
  rewrite filter_app. cbn [filter]. rewrite Hr. cbn [Z.eqb negb].
  now rewrite app_nil_r.
Qed.

Lemma lineStep_counters_ok (acc : LineAcc) (part : Change) :
  counters_ok acc -> counters_ok (lineStep acc part).
Proof.
  intro H. unfold lineStep.
  destruct (negb (added part) && negb (removed part));
    [|destruct (removed part); [|destruct (added part); [|exact H]]];
    (apply (fold_left_invariant _ counters_ok); [|exact H]);
    intros a il _ [H1 H2];
    unfold pushUnchanged, pushRemoved, pushAdded;
    (destruct (skipped _ il); [split; assumption|]);
    unfold counters_ok; cbn [result index1 index2]; split;
    first [ apply numbered_push_next; [assumption | reflexivity]
          | apply numbered_push_none; [assumption | reflexivity] ].
Qed.

(** X19. The rows of the line diff number the lines of each text
    consecutively: leaving out the rows marked -1 on a side, the line
    numbers of that side read 1, 2, 3, ... in row order. *)
Theorem X19_line_numbers_consecutive
    (diffLines : jsstring -> jsstring -> list Change) (t1 t2 : jsstring) :
  let rows := createLineDiff diffLines t1 t2 in
  map lineNumber1 (side1 rows) = map Z.of_nat (seq 1 (length (side1 rows)))
  /\ map lineNumber2 (side2 rows)
     = map Z.of_nat (seq 1 (length (side2 rows))).
Proof.
  cbv zeta. unfold createLineDiff, lineDiffOfParts.
  assert (H : counters_ok
                (fold_left lineStep (diffLines t1 t2)
                   {| result := []; index1 := 0; index2 := 0 |})).
  { apply (fold_left_invariant _ counters_ok).
    - intros a b _. apply lineStep_counters_ok.
    - split; split; reflexivity. }
  destruct H as [[_ H1] [_ H2]]. split; [exact H1|exact H2].
Qed.

Lemma split_line (l rest : jsstring) :
  lf_free l -> split LF (l ++ LF :: rest) = l :: split LF rest.
Proof.
  induction 1 as [|c l Hc _ IH]; cbn [app split].
  - now rewrite N.eqb_refl.
  - apply N.eqb_neq in Hc. now rewrite Hc, IH.
Qed.

Lemma split_open (t : jsstring) : lf_free t -> split LF t = [t].
Proof.
  induction 1 as [|c l Hc _ IH]; cbn [split]; [reflexivity|].
  apply N.eqb_neq in Hc. now rewrite Hc, IH.
Qed.

Lemma split_unlines (ls : list jsstring) (tail : jsstring) :
  Forall lf_free ls -> lf_free tail ->
  split LF (unlines ls tail) = ls ++ [tail].
Proof.
  unfold unlines. intros Hls Ht.
  induction Hls as [|l ls Hl _ IH]; cbn [map concat app].
  - now apply split_open.
  - rewrite <- !app_assoc. cbn [app]. now rewrite split_line, IH.
Qed.

Lemma indexed_snoc {A : Type} (l : list A) (a : A) :
  indexed (l ++ [a]) = indexed l ++ [(length l, a)].
Proof.
  unfold indexed.
  assert (G : forall s,
    combine (seq s (length (l ++ [a]))) (l ++ [a])
    = combine (seq s (length l)) l ++ [((s + length l)%nat, a)]).
  { induction l as [|b l IH]; intro s; cbn [length app seq combine].
    - now rewrite Nat.add_0_r.
    - rewrite IH. now rewrite Nat.add_succ_r. }
  apply (G 0%nat).
Qed.

Lemma filter_all {A : Type} (f : A -> bool) (l : list A) :
  (forall a, In a l -> f a = true) -> filter f l = l.
Proof.
  induction l as [|a l IH]; intro H; cbn [filter]; [reflexivity|].
  rewrite (H a) by now left. f_equal. apply IH. intros b Hb. apply H.
  now right.
Qed.

(** The lines of a part that are not skipped. *)
Lemma kept_lines (ls : list jsstring) (tail : jsstring) :
  map snd
    (filter (fun il => negb (skipped (length (ls ++ [tail])) il))
       (indexed (ls ++ [tail])))
  = linesOf ls tail.
Proof.
  rewrite indexed_snoc, filter_app, map_app. unfold linesOf. f_equal.
  - rewrite filter_all; [apply indexed_snd|].
    intros [i l] Hin. apply indexed_In in Hin.
    unfold skipped. cbn [fst snd]. rewrite length_app. cbn [length].
    destruct (Z.eqb_spec (Z.of_nat i) (Z.of_nat (length ls + 1) - 1));
      [lia|reflexivity].
  - cbn [filter]. unfold skipped. cbn [fst snd].
    rewrite length_app. cbn [length].
    destruct (Z.eqb_spec (Z.of_nat (length ls))
                (Z.of_nat (length ls + 1) - 1)) as [_|Hne]; [|lia].
    cbn [andb]. now destruct (is_empty tail).
Qed.

Lemma push_fold_rows (push : nat -> LineAcc -> nat * jsstring -> LineAcc)
    (ty : LineType) (n : nat) :
  (forall acc il, skipped n il = true -> push n acc il = acc) ->
  (forall acc il, skipped n il = false ->
     map rowView (result (push n acc il))
     = map rowView (result acc) ++ [(ty, snd il)]) ->
  forall ils acc,
    map rowView (result (fold_left (push n) ils acc))
    = map rowView (result acc)
      ++ map (fun l => (ty, l))
           (map snd (filter (fun il => negb (skipped n il)) ils)).
Proof.
  intros Hskip Hpush. induction ils as [|il ils IH]; intro acc;
    cbn [fold_left filter].
  - now rewrite app_nil_r.
  - rewrite IH. destruct (skipped n il) eqn:E; cbn [negb].
    + now rewrite Hskip.
    + rewrite Hpush by exact E. cbn [map]. now rewrite <- app_assoc.
Qed.

Lemma lineStep_rows (acc : LineAcc) (pl : PartLines) :
  pl_ok pl ->
  map rowView (result (lineStep acc (pl_part pl)))
  = map rowView (result acc)
    ++ map (fun l => (partType (pl_part pl), l))
         (linesOf (pl_lines pl) (pl_tail pl)).
Proof.
  intros (Hv & Hls & Ht). unfold lineStep, partType.
  rewrite Hv, split_unlines by assumption.
  rewrite <- kept_lines.
  destruct (negb (added (pl_part pl)) && negb (removed (pl_part pl))) eqn:E0;
    [|destruct (removed (pl_part pl)) eqn:Er;
      [|destruct (added (pl_part pl)) eqn:Ea]].
  - apply (push_fold_rows pushUnchanged).
    + intros a il E. unfold pushUnchanged. now rewrite E.
    + intros a il E. unfold pushUnchanged. rewrite E. cbn [result].
      now rewrite map_app.
  - apply (push_fold_rows pushRemoved).
    + intros a il E. unfold pushRemoved. now rewrite E.
    + intros a il E. unfold pushRemoved. rewrite E. cbn [result].
      now rewrite map_app.
  - apply (push_fold_rows pushAdded).
    + intros a il E. unfold pushAdded. now rewrite E.
    + intros a il E. unfold pushAdded. rewrite E. cbn [result].
      now rewrite map_app.
  - discriminate E0.
Qed.

(** X20. The line diff shows one row per line of every part, in order,
    of the part's kind: for a part whose value consists of lines closed
    by a line feed and of a last piece without one, these are the closed
    lines, blank ones included, and the last piece unless it is empty.
    So the line feed that closes the last line of a part yields no row
    of its own. *)
Theorem X20_one_row_per_line (pls : list PartLines) :
  Forall pl_ok pls ->
  map rowView (lineDiffOfParts (map pl_part pls))
  = flat_map
      (fun pl => map (fun l => (partType (pl_part pl), l))
                   (linesOf (pl_lines pl) (pl_tail pl)))
      pls.
Proof.
  intro Hall. unfold lineDiffOfParts.
  assert (G : forall acc,
    map rowView (result (fold_left lineStep (map pl_part pls) acc))
    = map rowView (result acc)
      ++ flat_map
           (fun pl => map (fun l => (partType (pl_part pl), l))
                        (linesOf (pl_lines pl) (pl_tail pl)))
           pls).
  { induction Hall as [|pl pls Hpl _ IH]; intro acc;
      cbn [map fold_left flat_map].
    - now rewrite app_nil_r.
    - rewrite IH, (lineStep_rows acc pl Hpl). now rewrite <- app_assoc. }
  apply (G {| result := []; index1 := 0; index2 := 0 |}).
Qed.

(** X20 at an unchanged part "a", blank, "b" followed by an added part
    "c": four rows, the blank line among them. *)
Lemma X20_one_row_per_line_witness :
  map rowView (lineDiffOfParts (map pl_part blankLineParts))
  = [ (unchanged, [97%N]); (unchanged, []); (unchanged, [98%N]);
      (added_line, [99%N]) ].
Proof.
  apply (X20_one_row_per_line blankLineParts).
  repeat constructor; discriminate.
Defined.

(** ** More on the sanitizer *)

Lemma sanitized_code_unit_ascii (ch : N) :
  (ch <= 0xFFFF)%N -> (sanitized_code_unit ch < 0x80)%N.
Proof.
  intro H. unfold sanitized_code_unit, in_class, placeholder.
  destruct (N.leb_spec 0x80 ch), (N.leb_spec ch 0xFFFF); cbn [andb];
    try lia.
  destruct (ch =? ARROWHEAD)%N; lia.
Qed.

Lemma sanitized_code_unit_idempotent (ch : N) :
  sanitized_code_unit (sanitized_code_unit ch) = sanitized_code_unit ch.
Proof.
  destruct (in_class ch) eqn:E.
  - assert (H : sanitized_code_unit ch = placeholder ch)
      by (unfold sanitized_code_unit; now rewrite E).
    rewrite H. unfold placeholder.
    destruct (ch =? ARROWHEAD)%N; reflexivity.
  - assert (H : sanitized_code_unit ch = ch)
      by (unfold sanitized_code_unit; now rewrite E).
    now rewrite !H.
Qed.

(** X21. The sanitized text is plain ASCII: for a string of UTF-16 code
    units, every code unit of the result is below U+0080. *)
Theorem X21_sanitized_text_is_ascii (s : jsstring) :
  Forall (fun ch => (ch <= 0xFFFF)%N) s ->
  Forall (fun ch => (ch < 0x80)%N) (sanitizeTextForWinAnsi s).
Proof.
  intro H. rewrite sanitize_map.
  induction H as [|ch s Hch _ IH]; cbn [map]; constructor.
  - now apply sanitized_code_unit_ascii.
  - exact IH.
Qed.

(** X21 at "A", e-acute, the arrowhead and U+1F600. *)
Lemma X21_sanitized_text_is_ascii_witness :
  Forall (fun ch => (ch < 0x80)%N) (sanitizeTextForWinAnsi mixedText).
Proof.
  apply (X21_sanitized_text_is_ascii mixedText).
  repeat constructor; discriminate.
Defined.

(** X22. Sanitizing is idempotent and works piece by piece: a sanitized
    text is left unchanged by a second pass, and the sanitized form of a
    concatenation is the concatenation of the sanitized forms. *)
Theorem X22_sanitize_idempotent (s t : jsstring) :
  sanitizeTextForWinAnsi (sanitizeTextForWinAnsi s)
  = sanitizeTextForWinAnsi s
  /\ sanitizeTextForWinAnsi (s ++ t)
     = sanitizeTextForWinAnsi s ++ sanitizeTextForWinAnsi t.
Proof.
  rewrite !sanitize_map. split.
  - rewrite map_map. apply map_ext. apply sanitized_code_unit_idempotent.
  - apply map_app.
Qed.

(** ** The differences document *)

Lemma split_sep_free (sep : N) (s : jsstring) :
  Forall (Forall (fun c => c <> sep)) (split sep s).
Proof.
  induction s as [|c s IH]; cbn [split]; [repeat constructor|].
  destruct (N.eqb_spec c sep) as [|Hne].
  - constructor; [constructor|exact IH].
  - destruct (split sep s) as [|piece pieces]; [repeat constructor; exact Hne|].
    inversion IH; subst. constructor; [constructor; assumption|assumption].
Qed.


Lemma allDraws_breakPageIfLow (st : DiffPdf) :
  allDraws (breakPageIfLow st) = allDraws st.
Proof.
  unfold breakPageIfLow, allDraws, pdfPages.
  destruct (Qlt_bool (yPosition st) (margin + 50)); [|reflexivity].
  cbn [donePages currentPage]. rewrite !concat_app. cbn [concat].
  now rewrite !app_nil_r.
Qed.

Lemma allDraws_drawText (st : DiffPdf) text x size color :
  allDraws (drawText st text x size color)
  = allDraws st
    ++ [ {| dt_text := text; dt_x := x; dt_y := yPosition st;
            dt_size := size; dt_color := color |} ].
Proof.
  unfold allDraws, pdfPages, drawText. cbn [donePages currentPage].
  rewrite !concat_app. cbn [concat]. now rewrite !app_nil_r, app_assoc.
Qed.

Lemma draw_body_line_ok widthOfTextAtSize parts (st : DiffPdf)
    (part : Change) (l : jsstring) :
  In part parts -> draws_ok widthOfTextAtSize parts st ->
  is_empty l = false ->
  fits widthOfTextAtSize l \/ space_free l ->
  draws_ok widthOfTextAtSize parts
    (drawText st (sanitizeTextForWinAnsi l) margin fontSize
       (partColor part)).
Proof.
  intros Hin Hst Hne Hl. unfold draws_ok.
  rewrite allDraws_drawText. apply Forall_app. split; [exact Hst|].
  constructor; [|constructor]. right. exists part, l.
  cbn [dt_text dt_x dt_size dt_color].
  repeat split; try assumption. intros ->. discriminate.
Qed.

Lemma pdfWordStep_ok widthOfTextAtSize parts (part : Change) (st : DiffPdf)
    (currentLine word : jsstring) :
  In part parts -> space_free word ->
  draws_ok widthOfTextAtSize parts st ->
  fits widthOfTextAtSize currentLine \/ space_free currentLine ->
  let r := pdfWordStep widthOfTextAtSize part (st, currentLine) word in
  draws_ok widthOfTextAtSize parts (fst r)
  /\ (fits widthOfTextAtSize (snd r) \/ space_free (snd r)).
Proof.
  intros Hin Hw Hst Hcl. cbv zeta. unfold pdfWordStep.
  set (testLine :=
         currentLine ++ (if is_empty currentLine then [] else [SPACE]) ++ word).
  destruct (Qlt_bool maxWidth
              (widthOfTextAtSize (sanitizeTextForWinAnsi testLine) fontSize))
    eqn:Ewide; cbn [andb].
  - destruct (is_empty currentLine) eqn:Ecl; cbn [negb fst snd].
    + split; [exact Hst|]. right. subst testLine.
      destruct currentLine; [|discriminate]. exact Hw.
    + split; [|right; exact Hw].
      unfold draws_ok. rewrite allDraws_breakPageIfLow.
      now apply draw_body_line_ok.
  - cbn [fst snd]. split; [exact Hst|]. left. unfold fits.
    unfold Qlt_bool in Ewide. apply negb_false_iff in Ewide.
    now apply Qle_bool_iff in Ewide.
Qed.

Lemma pdfWords_ok widthOfTextAtSize parts (part : Change)
    (words : list jsstring) :
  In part parts -> Forall space_free words ->
  forall st currentLine,
    draws_ok widthOfTextAtSize parts st ->
    fits widthOfTextAtSize currentLine \/ space_free currentLine ->
    let r := fold_left (pdfWordStep widthOfTextAtSize part) words
               (st, currentLine) in
    draws_ok widthOfTextAtSize parts (fst r)
    /\ (fits widthOfTextAtSize (snd r) \/ space_free (snd r)).
Proof.
  intros Hin Hws. induction Hws as [|w ws Hw _ IH];
    intros st cl Hst Hcl; cbn [fold_left].
  - split; assumption.
  - destruct (pdfWordStep_ok widthOfTextAtSize parts part st cl w
                Hin Hw Hst Hcl) as [H1 H2].
    destruct (pdfWordStep widthOfTextAtSize part (st, cl) w) as [st' cl'].
    now apply IH.
Qed.

Lemma pdfLineStep_ok widthOfTextAtSize parts (part : Change)
    (st : DiffPdf) (line : jsstring) :
  In part parts -> draws_ok widthOfTextAtSize parts st ->
  draws_ok widthOfTextAtSize parts
    (pdfLineStep widthOfTextAtSize part st line).
Proof.
  intros Hin Hst. unfold pdfLineStep.
  destruct (negb (trim_nonempty line)); [exact Hst|].
  pose proof (pdfWords_ok widthOfTextAtSize parts part (split SPACE line) Hin
                (split_sep_free SPACE line) st [] Hst
                (or_intror (Forall_nil _))) as H.
  match goal with
  | |- context [fold_left ?f ?w ?i] => set (r := fold_left f w i)
  end.
  change (draws_ok widthOfTextAtSize parts (fst r)
          /\ (fits widthOfTextAtSize (snd r) \/ space_free (snd r))) in H.
  clearbody r. destruct r as [st1 cl]. destruct H as [H1 H2].
  cbn [fst snd] in H1, H2.
  destruct (is_empty cl) eqn:Ecl; cbn [negb]; [exact H1|].
  now apply draw_body_line_ok.
Qed.

Lemma pdfPartStep_ok widthOfTextAtSize parts (st : DiffPdf) (part : Change) :
  In part parts -> draws_ok widthOfTextAtSize parts st ->
  draws_ok widthOfTextAtSize parts
    (pdfPartStep widthOfTextAtSize st part).
Proof.
  intros Hin Hst. unfold pdfPartStep.
  apply (fold_left_invariant _ (draws_ok widthOfTextAtSize parts)).
  - intros a b _. now apply pdfLineStep_ok.
  - unfold draws_ok. now rewrite allDraws_breakPageIfLow.
Qed.

Lemma pdfParts_ok widthOfTextAtSize parts (done : list Change) :
  (forall p, In p done -> In p parts) ->
  draws_ok widthOfTextAtSize parts
    (fold_left (pdfPartStep widthOfTextAtSize) done pdfHeader).
Proof.
  intro Hsub. apply (fold_left_invariant _ (draws_ok widthOfTextAtSize parts)).
  - intros a b Hb. apply pdfPartStep_ok. now apply Hsub.
  - unfold draws_ok. apply Forall_forall. intros d Hd. left.
    exact Hd.
Qed.


(** X23. Apart from the four lines of the header, every text drawn in
    the differences document is the sanitized form of a non-empty line
    that either fits between the margins or is a single word without any
    space; it is drawn at the left margin, in the body font size and in
    the colour of a part of the line diff (green for an added part, red
    for a removed one, black otherwise). *)
Theorem X23_body_lines_fit_or_are_one_word
    (widthOfTextAtSize : jsstring -> Q -> Q)
    (diffLines : jsstring -> jsstring -> list Change)
    (text1 text2 : jsstring) :
  Forall
    (Forall (fun d => In d (currentPage pdfHeader)
                      \/ body_line widthOfTextAtSize (diffLines text1 text2) d))
    (createDiffPdf widthOfTextAtSize diffLines text1 text2).
Proof.
  unfold createDiffPdf.
  pose proof (pdfParts_ok widthOfTextAtSize (diffLines text1 text2)
                (diffLines text1 text2) (fun p H => H)) as H.
  unfold draws_ok, allDraws in H.
  apply Forall_forall. intros page Hpage.
  apply Forall_forall. intros d Hd.
  rewrite Forall_forall in H. apply H.
  apply in_concat. exists page. split; assumption.
Qed.






(** ** The properties above at concrete inputs *)

(** X4 at "Hello" and at "a<b". *)
Lemma X4_escapeHtml_fixes_plain_text_witness :
  escapeHtml (lit "Hello") = lit "Hello"
  /\ escapeHtml (lit "a<b") <> lit "a<b".
Proof.
  split.
  - apply (proj1 (X4_escapeHtml_fixes_plain_text (lit "Hello"))).
    reflexivity.
  - intro H.
    apply (proj1 (X4_escapeHtml_fixes_plain_text (lit "a<b"))) in H.
    discriminate H.
Defined.

(** X14 at the two-page example and at a document without text. *)
Lemma X14_layout_text_versus_fallback_witness :
  text (collectSecondTextLayout twoPages) <> extractTextLocalFallback twoPages
  /\ text (collectSecondTextLayout [pageOf []])
     = extractTextLocalFallback [pageOf []].
Proof.
  split.
  - intro H.
    apply (proj2 (X14_layout_text_versus_fallback twoPages)) in H.
    discriminate H.
  - apply (proj2 (X14_layout_text_versus_fallback [pageOf []])).
    reflexivity.
Defined.

(** X15 at the one-item document with the word diff that adds "x": the
    one rectangle drawn is the highlight of the one segment and the one
    run. *)
Lemma X15_only_highlights_are_drawn_witness :
  exists st page r,
    createAnnotatedSecondPdf diffAddsX [] (lit "x") flipFile = Some st
    /\ nth_error (outDoc st) 0 = Some page
    /\ drawn page = [r]
    /\ highlight_of (computeAddedAndModifiedSegments diffAddsX [] (lit "x"))
         (items (collectSecondTextLayout flipFile)) 0 (size_height page) r.
Proof.
  destruct (X15_only_highlights_are_drawn diffAddsX [] (lit "x") flipFile)
    as (st & E & H).
  vm_compute in E. injection E as <-.
  eexists. eexists. eexists.
  split; [reflexivity|]. split; [reflexivity|]. split; [reflexivity|].
  apply (H 0%nat); [reflexivity | left; reflexivity].
Defined.

(** X16 at the same input: the rectangle spans the run from x = 50 over
    its width of 20. *)
Lemma X16_drawn_rectangles_bounded_witness :
  exists st page r,
    createAnnotatedSecondPdf diffAddsX [] (lit "x") flipFile = Some st
    /\ nth_error (outDoc st) 0 = Some page
    /\ drawn page = [r]
    /\ (0 < rect_width r)%Q /\ (0 <= rect_y r)%Q /\ (2 <= rect_height r)%Q.
Proof.
  destruct (X16_drawn_rectangles_bounded diffAddsX [] (lit "x") flipFile)
    as (st & E & H).
  vm_compute in E. injection E as <-.
  eexists. eexists. eexists.
  split; [reflexivity|]. split; [reflexivity|]. split; [reflexivity|].
  refine (proj2 (H 0%nat _ _ _ _)); [reflexivity | left; reflexivity].
Defined.

(** ** Runs tile the assembled text *)

Lemma tiled_snoc (bs : list TextItemBox) (b : TextItemBox) :
  forall pg off,
    tiled pg off bs ->
    (fst (lastRun bs) <= pageIndex b)%nat ->
    (bs = [] ->
     (pg <= pageIndex b)%nat
     /\ start b = off + 2 * (Z.of_nat (pageIndex b) - Z.of_nat pg)) ->
    (bs <> [] ->
     start b = snd (lastRun bs)
               + 2 * (Z.of_nat (pageIndex b)
                      - Z.of_nat (fst (lastRun bs)))) ->
    tiled pg off (bs ++ [b]).
Proof.
  induction bs as [|c bs IH]; intros pg off H Hle H0 H1.
  - destruct (H0 eq_refl). cbn [app tiled]. tauto.
  - destruct H as (Ha & Hb & Hc). cbn [app tiled].
    split; [exact Ha|]. split; [exact Hb|].
    assert (Hlast : bs <> [] -> lastRun (c :: bs) = lastRun bs).
    { intro Hne. unfold lastRun, last_error. cbn [rev].
      destruct (rev bs) eqn:E.
      - apply (f_equal (@rev _)) in E. rewrite rev_involutive in E.
        contradiction.
      - reflexivity. }
    apply IH.
    + exact Hc.
    + destruct bs as [|d bs]; [cbn; unfold lastRun in Hle; cbn in Hle; lia|].
      rewrite <- Hlast by discriminate. exact Hle.
    + intros ->. specialize (H1 ltac:(discriminate)).
      unfold lastRun in *. cbn in *. split; [lia|exact H1].
    + intro Hne. rewrite <- Hlast by exact Hne. apply H1. discriminate.
Qed.

Lemma lastRun_snoc (bs : list TextItemBox) (b : TextItemBox) :
  lastRun (bs ++ [b]) = (pageIndex b, end_ b).
Proof. unfold lastRun, last_error. now rewrite rev_app_distr. Qed.

Lemma pushItem_tiles_ok k pw ph rx ry acc it :
  tiles_ok k acc -> tiles_ok k (pushItem k pw ph rx ry acc it).
Proof.
  intros (T & Hle & Hlen). unfold tiles_ok, pushItem. cbn [items text].
  rewrite lastRun_snoc. cbn [fst snd pageIndex end_].
  split; [|split; [lia|lia]].
  apply tiled_snoc; cbn [pageIndex start]; try assumption.
  - intros E. rewrite E in Hlen. unfold lastRun, last_error in Hlen.
    cbn [rev hd_error fst snd] in Hlen. split; lia.
  - intros _. exact Hlen.
Qed.

Lemma collectPage_tiles_ok k page acc :
  tiles_ok k acc -> tiles_ok (S k) (collectPage acc (k, page)).
Proof.
  intro H. rewrite collectPage_unfold. cbv zeta.
  assert (H2 : tiles_ok k
    (fold_left
       (pushItem k (page_width page) (page_height page)
          (page_width page / viewport_width page)%Q
          (page_height page / viewport_height page)%Q)
       (page_items page)
       {| items := items acc; text := text acc;
          pageHeights := pageHeights acc ++ [page_height page];
          pageWidths := pageWidths acc ++ [page_width page] |})).
  { apply (fold_left_invariant _ (tiles_ok k)).
    - intros a b _. apply pushItem_tiles_ok.
    - exact H. }
  destruct H2 as (T & Hle & Hlen). unfold tiles_ok. cbn [items text].
  split; [exact T|]. split; [lia|].
  rewrite strlen_app, Hlen. unfold strlen. cbn [length]. lia.
Qed.

Lemma collect_fold_tiles_ok (l : list SrcPage) :
  forall s acc,
    tiles_ok s acc ->
    tiles_ok (s + length l)
      (fold_left collectPage (combine (seq s (length l)) l) acc).
Proof.
  induction l as [|page l IH]; intros s acc H;
    cbn [length seq combine fold_left].
  - now rewrite Nat.add_0_r.
  - rewrite Nat.add_succ_r. apply (IH (S s)).
    now apply collectPage_tiles_ok.
Qed.

Lemma layout_tiles_ok (file : PdfFile) :
  tiles_ok (length file) (collectSecondTextLayout file).
Proof.
  apply (collect_fold_tiles_ok file 0 emptyLayout).
  unfold tiles_ok, lastRun. cbn. repeat split; lia.
Qed.

Lemma tiled_adjacent (bs : list TextItemBox) :
  forall pg off i a b,
    tiled pg off bs ->
    nth_error bs i = Some a -> nth_error bs (S i) = Some b ->
    (pageIndex a <= pageIndex b)%nat
    /\ start b = end_ a
                 + 2 * (Z.of_nat (pageIndex b) - Z.of_nat (pageIndex a)).
Proof.
  induction bs as [|c bs IH]; intros pg off i a b H Ha Hb.
  - destruct i; discriminate.
  - destruct H as (H1 & H2 & H3). destruct i as [|i].
    + simpl in Ha. injection Ha as ->.
      destruct bs as [|d bs]; [discriminate|].
      simpl in Hb. injection Hb as ->. simpl in H3. tauto.
    + simpl in Ha. change (nth_error bs (S i) = Some b) in Hb. eauto.
Qed.

(** X25. The runs tile the assembled text of the layout: the first run
    starts two characters after offset 0 for every page before its own;
    every later run starts exactly where the run before it ends when
    both are on the same page, and two characters later for every page
    break between them; and the text ends two characters after the last
    run for every page from the last run's on. *)
Theorem X25_runs_tile_the_text (file : PdfFile) :
  let l := collectSecondTextLayout file in
  (forall b, nth_error (items l) 0 = Some b ->
             start b = 2 * Z.of_nat (pageIndex b))
  /\ (forall i a b,
        nth_error (items l) i = Some a ->
        nth_error (items l) (S i) = Some b ->
        (pageIndex a <= pageIndex b)%nat
        /\ start b = end_ a
                     + 2 * (Z.of_nat (pageIndex b) - Z.of_nat (pageIndex a)))
  /\ (forall b, last_error (items l) = Some b ->
                strlen (text l)
                = end_ b
                  + 2 * (Z.of_nat (length file) - Z.of_nat (pageIndex b))).
Proof.
  cbv zeta. destruct (layout_tiles_ok file) as (T & Hle & Hlen).
  split; [|split].
  - intros b Hb. destruct (items (collectSecondTextLayout file)) as [|c bs];
      [discriminate|].
    injection Hb as ->. destruct T as (_ & Hs & _). lia.
  - intros i a b. now apply tiled_adjacent with (1 := T).
  - intros b Hb. unfold lastRun in Hlen. rewrite Hb in Hlen.
    exact Hlen.
Qed.

(** X25 at the two-page example: "a" is run 0..2 on page 0, "b" is run
    4..6 on page 1, and the text has 8 characters. *)
Lemma X25_runs_tile_the_text_witness :
  exists a b,
    nth_error (items (collectSecondTextLayout twoPages)) 0 = Some a
    /\ nth_error (items (collectSecondTextLayout twoPages)) 1 = Some b
    /\ start a = 0
    /\ start b = end_ a + 2 * (1 - 0)
    /\ strlen (text (collectSecondTextLayout twoPages)) = end_ b + 2 * (2 - 1).
Proof.
  destruct (X25_runs_tile_the_text twoPages) as (H0 & H1 & H2).
  eexists. eexists.
  split; [reflexivity|]. split; [reflexivity|]. split; [|split].
  - apply (H0 _ eq_refl).
  - apply (H1 0%nat _ _ eq_refl eq_refl).
  - apply (H2 _ eq_refl).
Defined.

(** ** How much of a segment is highlighted *)

Lemma covered_cons (seg : Segment) (b : TextItemBox) (bs : list TextItemBox) :
  covered seg (b :: bs)
  = (if overlapping seg b then overlapEnd seg b - overlapStart seg b else 0)
    + covered seg bs.
Proof.
  unfold covered. cbn [filter]. destruct (overlapping seg b); reflexivity.
Qed.

Lemma covered_chained (seg : Segment) (bs : list TextItemBox) :
  forall lo hi,
    chained lo bs hi ->
    0 <= covered seg bs
    /\ covered seg bs
       <= Z.max 0 (Z.min (seg_end seg) hi - Z.max (seg_start seg) lo).
Proof.
  induction bs as [|b bs IH]; intros lo hi H.
  - unfold covered. cbn. lia.
  - destruct H as (H1 & H2 & H3). rewrite covered_cons.
    pose proof (chained_bounds _ _ _ H3) as Hb.
    destruct (IH _ _ H3) as [I1 I2].
    unfold overlapping, overlapEnd, overlapStart in *.
    destruct (Z.leb_spec (Z.min (seg_end seg) (end_ b))
                (Z.max (seg_start seg) (start b))); cbn [negb]; lia.
Qed.

Lemma covered_contiguous (seg : Segment) (bs : list TextItemBox) :
  forall off,
    contiguous off bs ->
    off <= endOf off bs
    /\ covered seg bs
       = Z.max 0 (Z.min (seg_end seg) (endOf off bs)
                  - Z.max (seg_start seg) off).
Proof.
  induction bs as [|b bs IH]; intros off H.
  - unfold covered. cbn. lia.
  - destruct H as (H1 & H2 & H3). rewrite covered_cons. cbn [endOf].
    destruct (IH _ H3) as [I1 I2]. rewrite I2.
    unfold overlapping, overlapEnd, overlapStart in *.
    destruct (Z.leb_spec (Z.min (seg_end seg) (end_ b))
                (Z.max (seg_start seg) (start b))); cbn [negb]; lia.
Qed.

Lemma tiled_one_page (p : nat) (bs : list TextItemBox) :
  forall pg off lo hi,
    tiled pg off bs -> chained lo bs hi ->
    Forall (fun b => pageIndex b = p) bs ->
    contiguous (off + 2 * (Z.of_nat p - Z.of_nat pg)) bs.
Proof.
  induction bs as [|b bs IH]; intros pg off lo hi T C F; [exact I|].
  destruct T as (T1 & T2 & T3). destruct C as (C1 & C2 & C3).
  inversion F as [|? ? Fb Frest]; subst. cbn [contiguous].
  split; [lia|]. split; [exact C2|].
  replace (end_ b)
    with (end_ b + 2 * (Z.of_nat (pageIndex b) - Z.of_nat (pageIndex b)))
    by lia.
  now apply (IH (pageIndex b) (end_ b) (end_ b) hi).
Qed.

Lemma endOf_last (bs : list TextItemBox) :
  forall off b, last_error bs = Some b -> endOf off bs = end_ b.
Proof.
  induction bs as [|c bs IH]; intros off b H; [discriminate|].
  cbn [endOf]. destruct bs as [|d bs].
  - unfold last_error in H. cbn in H. now injection H as ->.
  - apply IH. unfold last_error in *. cbn [rev] in *.
    destruct (rev bs ++ [d]) eqn:E.
    + destruct (rev bs); discriminate.
    + cbn in *. exact H.
Qed.

(** X26. The rectangles of a segment never stand for more offsets than
    the segment has: the overlaps of a segment with the runs of the
    layout add up to at most its length. When all runs are on one page
    and the segment lies between the start of the first and the end of
    the last run, the overlaps add up to exactly its length: the segment
    is highlighted from end to end. *)
Theorem X26_overlap_completeness (file : PdfFile) (seg : Segment) :
  let its := items (collectSecondTextLayout file) in
  (seg_start seg <= seg_end seg ->
   0 <= covered seg its <= seg_end seg - seg_start seg)
  /\ (forall p b,
        Forall (fun it => pageIndex it = p) its ->
        last_error its = Some b ->
        2 * Z.of_nat p <= seg_start seg -> seg_start seg <= seg_end seg ->
        seg_end seg <= end_ b ->
        covered seg its = seg_end seg - seg_start seg).
Proof.
  cbv zeta. split.
  - intro Hse.
    destruct (covered_chained seg _ _ _ (layout_offsets_ok file)) as [H1 H2].
    lia.
  - intros p b Hp Hb H1 H2 H3.
    destruct (layout_tiles_ok file) as (T & _ & _).
    pose proof (tiled_one_page p _ 0%nat 0 0 _ T (layout_offsets_ok file) Hp)
      as Hc.
    destruct (covered_contiguous seg _ _ Hc) as [_ E].
    rewrite E, (endOf_last _ _ b Hb). lia.
Qed.

(** X26 at a one-page document with the runs 0..3 and 3..6 and the
    segment 1..5: all four offsets are covered. *)
Lemma X26_overlap_completeness_witness :
  covered insidePage (items (collectSecondTextLayout onePage)) = 4.
Proof.
  destruct (X26_overlap_completeness onePage insidePage) as [_ H].
  refine (H 0%nat _ _ eq_refl _ _ _).
  - repeat constructor.
  - discriminate.
  - discriminate.
  - discriminate.
Defined.

(* ================================================================= *)
(** * The word diff of the specification *)

Lemma tokenize_tokens (s : jsstring) :
  concat (tokenize s) = s /\ Forall (fun tok => tok <> []) (tokenize s).
Proof.
  induction s as [|c s [IH F]]; [split; [reflexivity|constructor]|].
  cbn [tokenize]. destruct (tokenize s) as [|[|d tok] toks].
  - cbn in IH. subst s. split; [reflexivity|].
    constructor; [discriminate|constructor].
  - apply Forall_cons_iff in F. destruct F as [Hne _]. congruence.
  - apply Forall_cons_iff in F. destruct F as [_ Hrest].
    destruct (Bool.eqb (is_ws c) (is_ws d)); cbn in *; rewrite <- IH;
      (split; [reflexivity|]); repeat (constructor; try discriminate);
      assumption.
Qed.

Lemma tokenize_concat (s : jsstring) : concat (tokenize s) = s.
Proof. apply tokenize_tokens. Qed.

Lemma token_eqb_refl (a : jsstring) : token_eqb a a = true.
Proof. unfold token_eqb. now destruct (list_eq_dec N.eq_dec a a). Qed.

Lemma align_cons_cons (x y : jsstring) (xs ys : list jsstring) :
  align (x :: xs) (y :: ys)
  = if token_eqb x y then (Kept, x) :: align xs ys
    else
      let viaRemoval := (Removed, x) :: align xs (y :: ys) in
      let viaAddition := (Added, y) :: align (x :: xs) ys in
      if (cost viaRemoval <=? cost viaAddition)%nat
      then viaRemoval else viaAddition.
Proof. reflexivity. Qed.

Lemma align_nil_r (xs : list jsstring) :
  align xs [] = map (pair Removed) xs.
Proof. destruct xs; reflexivity. Qed.

(** A text aligned with itself keeps every token. *)
Lemma align_same (xs : list jsstring) : align xs xs = map (pair Kept) xs.
Proof.
  induction xs as [|x xs IH]; [reflexivity|].
  rewrite align_cons_cons, token_eqb_refl, IH. reflexivity.
Qed.

(** The alignment is one of the two token lists: without the added
    tokens it reads the first list, without the removed ones the
    second. *)
Lemma align_sound (xs : list jsstring) :
  forall ys,
    map snd (filter (fun e => negb (tag_eqb (fst e) Added)) (align xs ys))
    = xs
    /\ map snd (filter (fun e => negb (tag_eqb (fst e) Removed))
                  (align xs ys))
       = ys.
Proof.
  induction xs as [|x xs IHx]; intro ys.
  - cbn [align]. induction ys as [|y ys [IH1 IH2]]; [split; reflexivity|].
    cbn [map filter fst snd tag_eqb negb]. split; [exact IH1|].
    now rewrite IH2.
  - induction ys as [|y ys [IH1 IH2]].
    + rewrite align_nil_r. clear IHx.
      induction (x :: xs) as [|z zs [I1 I2]]; [split; reflexivity|].
      cbn [map filter fst snd tag_eqb negb]. split; [now rewrite I1|exact I2].
    + rewrite align_cons_cons.
      unfold token_eqb. destruct (list_eq_dec N.eq_dec x y) as [->|Hne].
      * destruct (IHx ys) as [J1 J2].
        cbn [map filter fst snd tag_eqb negb]. now rewrite J1, J2.
      * cbv zeta.
        destruct (cost ((Removed, x) :: align xs (y :: ys))
                  <=? cost ((Added, y) :: align (x :: xs) ys))%nat.
        -- destruct (IHx (y :: ys)) as [J1 J2].
           cbn [map filter fst snd tag_eqb negb]. now rewrite J1, J2.
        -- cbn [map filter fst snd tag_eqb negb]. now rewrite IH1, IH2.
Qed.

Lemma tagOf_partOf (tg : Tag) (v : jsstring) : tagOf (partOf tg v) = tg.
Proof. destruct tg; reflexivity. Qed.

Lemma group_tagged (al : list (Tag * jsstring)) : Forall tagged (group al).
Proof.
  induction al as [|[tg v] al IH]; [constructor|].
  cbn [group]. destruct (group al) as [|p ps].
  - constructor; [|constructor]. unfold tagged.
    now rewrite tagOf_partOf.
  - inversion IH as [|? ? Hp Hps]; subst.
    destruct (tag_eqb tg (tagOf p)).
    + constructor; [|exact Hps]. unfold tagged. now rewrite tagOf_partOf.
    + constructor; [|exact IH]. unfold tagged. now rewrite tagOf_partOf.
Qed.

Lemma tag_eqb_eq (a b : Tag) : tag_eqb a b = true -> a = b.
Proof. destruct a, b; simpl; congruence. Qed.

(** Merging changes neither of the two texts the parts spell. *)
Lemma group_values (al : list (Tag * jsstring)) :
  concat (map value (filter inFirst (group al)))
  = concat (map snd (filter (fun e => negb (tag_eqb (fst e) Added)) al))
  /\ concat (map value (filter inSecond (group al)))
     = concat (map snd (filter (fun e => negb (tag_eqb (fst e) Removed)) al)).
Proof.
  induction al as [|[tg v] al [IH1 IH2]]; [split; reflexivity|].
  pose proof (group_tagged al) as T.
  cbn [group filter fst]. destruct (group al) as [|p ps].
  - cbn [filter map concat] in IH1, IH2.
    destruct tg; cbn; rewrite <- ?IH1, <- ?IH2; split; reflexivity.
  - inversion T as [|? ? Hp _]; subst. unfold tagged in Hp.
    destruct (tag_eqb tg (tagOf p)) eqn:E.
    + apply tag_eqb_eq in E. rewrite <- E in Hp. rewrite Hp in IH1, IH2.
      destruct tg; cbn in *; rewrite <- ?IH1, <- ?IH2, <- ?app_assoc;
        split; reflexivity.
    + destruct tg; cbn in *; rewrite <- ?IH1, <- ?IH2; split; reflexivity.
Qed.

(** The modelled word diff is a diff of its two texts: the parts other
    than the added ones spell the first text, the parts other than the
    removed ones spell the second, and no part carries both flags. *)
Lemma specDiffWords_sound (t1 t2 : jsstring) :
  concat (map value (filter inFirst (specDiffWords t1 t2))) = t1
  /\ concat (map value (filter inSecond (specDiffWords t1 t2))) = t2
  /\ Forall one_flag (specDiffWords t1 t2).
Proof.
  unfold specDiffWords.
  destruct (group_values (align (tokenize t1) (tokenize t2))) as [G1 G2].
  destruct (align_sound (tokenize t1) (tokenize t2)) as [A1 A2].
  rewrite G1, G2, A1, A2, !tokenize_concat.
  split; [reflexivity|]. split; [reflexivity|].
  eapply Forall_impl; [|apply group_tagged].
  intros p Hp. unfold tagged in Hp. rewrite Hp. unfold one_flag.
  destruct (tagOf p); reflexivity.
Qed.

(** The word diff of a text against itself has neither added nor removed
    parts. *)
Lemma specDiffWords_same (t : jsstring) :
  Forall (fun p => added p = false /\ removed p = false)
    (specDiffWords t t).
Proof.
  unfold specDiffWords. rewrite align_same.
  induction (tokenize t) as [|x xs IH]; [constructor|].
  cbn [map group]. destruct (group (map (pair Kept) xs)) as [|p ps].
  - repeat constructor.
  - inversion IH as [|? ? [Ha Hr] Hps]; subst.
    unfold tagOf. rewrite Ha, Hr. cbn [tag_eqb].
    constructor; [split; reflexivity|exact Hps].
Qed.

(** The model on the scenarios of the specification. *)
Example specDiffWords_scenario_A :
  specDiffWords (lit "Hello world") (lit "Hello there world") = partsA.
Proof. reflexivity. Qed.

Example specDiffWords_scenario_B :
  specDiffWords (lit "Alpha Beta") (lit "Alpha Gamma") = partsB.
Proof. reflexivity. Qed.

(** C5. With the word diff of the specification, comparing any text
    against itself yields no segment at all, and the annotated output of
    any document compared against itself then has all the pages of the
    document and carries no rectangle on any of them. *)
Theorem C5_identity_of_the_word_diff (t : jsstring) (fileSecond : PdfFile) :
  computeAddedAndModifiedSegments specDiffWords t t = []
  /\ exists st,
       createAnnotatedSecondPdf specDiffWords t t fileSecond = Some st
       /\ length (outDoc st) = length fileSecond
       /\ Forall (fun page => drawn page = []) (outDoc st).
Proof.
  assert (Hno : forall p, In p (specDiffWords t t) -> added p = false).
  { intros p Hp. pose proof (specDiffWords_same t) as H.
    rewrite Forall_forall in H. now apply H. }
  destruct (no_added_part_no_rectangle specDiffWords t t fileSecond Hno)
    as (Hsegs & st & E & Hlen & Hd).
  split; [exact Hsegs|]. exists st. split; [exact E|].
  split; [exact Hlen|].
  apply Forall_forall. intros page Hpage.
  unfold allDrawn in Hd.
  destruct (drawn page) as [|r rs] eqn:Er; [reflexivity|].
  assert (Hin : In r (flat_map drawn (outDoc st))).
  { apply in_flat_map. exists page. split; [exact Hpage|].
    rewrite Er. now left. }
  rewrite Hd in Hin. contradiction.
Qed.

(* ================================================================= *)
(** * Rectangles as they appear on the output pages *)

Lemma pushItem_fold_geometry (file : PdfFile) (pidx : nat) (page : SrcPage)
    (its : list TextItem) :
  nth_error file pidx = Some page ->
  forall acc l,
    Forall2 (geometry_ok file) (items acc) l ->
    Forall2 (geometry_ok file)
      (items (fold_left
                (pushItem pidx (page_width page) (page_height page)
                   (page_width page / viewport_width page)%Q
                   (page_height page / viewport_height page)%Q)
                its acc))
      (l ++ map (pair page) its).
Proof.
  intro Hpage. induction its as [|it its IH]; intros acc l H;
    cbn [fold_left map].
  - now rewrite app_nil_r.
  - replace (l ++ (page, it) :: map (pair page) its)
      with ((l ++ [(page, it)]) ++ map (pair page) its)
      by now rewrite <- app_assoc.
    apply IH. unfold pushItem at 1. cbn [items].
    apply Forall2_app; [exact H|]. constructor; [|constructor].
    unfold geometry_ok, yBottomPt. cbn [fst snd pageIndex x y width height].
    repeat split. exact Hpage.
Qed.

Lemma collect_fold_geometry (file : PdfFile) (l : list (nat * SrcPage)) :
  Forall (fun ip => nth_error file (fst ip) = Some (snd ip)) l ->
  forall acc pits,
    Forall2 (geometry_ok file) (items acc) pits ->
    Forall2 (geometry_ok file) (items (fold_left collectPage l acc))
      (pits ++ flat_map (fun p => map (pair p) (page_items p)) (map snd l)).
Proof.
  induction 1 as [|[pidx page] l Hp _ IH]; intros acc pits H;
    cbn [fold_left map snd flat_map].
  - now rewrite app_nil_r.
  - rewrite app_assoc. apply IH.
    rewrite collectPage_unfold. cbv zeta. cbn [items].
    now apply pushItem_fold_geometry.
Qed.

(** The runs of the layout are the text items of the file, one for one,
    each on its item's page and with the geometry computed from it. *)
Lemma layout_geometry_of_items (file : PdfFile) :
  Forall2 (geometry_ok file) (items (collectSecondTextLayout file))
    (itemsWithPage file).
Proof.
  unfold collectSecondTextLayout, itemsWithPage.
  assert (Hall : Forall (fun ip => nth_error file (fst ip) = Some (snd ip))
                   (indexed file)).
  { apply Forall_forall. intros [i p] Hin.
    apply In_nth_error in Hin. destruct Hin as [k Hk].
    rewrite nth_error_indexed in Hk.
    destruct (nth_error file k) as [q|] eqn:E; [|discriminate].
    cbn in Hk. injection Hk as <- <-. exact E. }
  rewrite <- (indexed_snd file) at 3.
  apply (collect_fold_geometry file (indexed file) Hall emptyLayout []).
  constructor.
Qed.

(** For a segment among those rendered and a run of the layout that
    overlap, the rectangle of the pair is on the output page of the
    run. *)
Lemma pair_rectangle_drawn (segs : list Segment) (file : PdfFile)
    (seg : Segment) (b : TextItemBox) :
  In seg segs -> In b (items (collectSecondTextLayout file)) ->
  Z.min (seg_end seg) (end_ b) > Z.max (seg_start seg) (start b) ->
  exists st page p,
    annotate segs file = Some st
    /\ nth_error (outDoc st) (pageIndex b) = Some page
    /\ nth_error file (pageIndex b) = Some p
    /\ size_height page = page_height p
    /\ In (highlightRect seg b (page_height p)) (drawn page).
Proof.
  intros Hseg Hb Hov.
  destruct (annotate_page segs file) as (st & E & H).
  assert (Hidx : (pageIndex b < length (outDoc st))%nat).
  { destruct (annotate_drawnOnto segs file) as (st' & E' & _ & L & _).
    assert (st' = st) by congruence. subst st'. rewrite L.
    unfold load. rewrite length_map.
    pose proof (layout_pageIndex file) as Hall.
    rewrite Forall_forall in Hall. now apply Hall. }
  destruct (nth_error (outDoc st) (pageIndex b)) as [page|] eqn:Hpage.
  2:{ apply nth_error_None in Hpage. lia. }
  destruct (H _ _ Hpage) as (p & Hp & Hh & Hd).
  exists st, page, p. repeat split; try assumption.
  rewrite Hd. unfold rectsFor.
  apply in_flat_map. exists seg. split; [exact Hseg|].
  apply in_flat_map. exists b. split; [exact Hb|].
  destruct (itemRects_cases seg b (pageIndex b) (page_height p)) as [_ Hr].
  rewrite Hr by exact Hov. now left.
Qed.

Lemma map_flat_map {A B C : Type} (f : B -> C) (g : A -> list B)
    (l : list A) :
  map f (flat_map g l) = flat_map (fun a => map f (g a)) l.
Proof.
  induction l as [|a l IH]; cbn [flat_map map]; [reflexivity|].
  now rewrite map_app, IH.
Qed.

(** C4. On every page of the annotated document, the horizontal
    positions and widths of the rectangles are, in drawing order, those
    of the pairs of a segment and a run of that page with
    [overlapEnd > overlapStart], where
    [overlapStart = max(seg.start, run.start)] and
    [overlapEnd = min(seg.end, run.end)]: such a pair has exactly one
    rectangle, with [x = run.x + run.width * fracStart] and
    [width = run.width * fracWidth] for
    [fracStart = (overlapStart - run.start) / max(1, run.end - run.start)]
    and
    [fracWidth = (overlapEnd - overlapStart) / max(1, run.end - run.start)];
    a pair with [overlapEnd <= overlapStart] has none. The divisor is
    never 0. *)
Theorem C4_rectangles_of_overlapping_pairs
    (segs : list Segment) (fileSecond : PdfFile) :
  (exists st,
     annotate segs fileSecond = Some st
     /\ forall k page,
          nth_error (outDoc st) k = Some page ->
          map (fun r => (rect_x r, rect_width r)) (drawn page)
          = flat_map
              (fun seg =>
                 flat_map
                   (fun run =>
                      let overlapStart :=
                        Z.max (seg_start seg) (start run) in
                      let overlapEnd := Z.min (seg_end seg) (end_ run) in
                      let divisor := Z.max 1 (end_ run - start run) in
                      if (overlapStart <? overlapEnd)
                         && Nat.eqb (pageIndex run) k
                      then
                        [ ((x run
                            + width run
                              * (inject_Z (overlapStart - start run)
                                 / inject_Z divisor))%Q,
                           (width run
                            * (inject_Z (overlapEnd - overlapStart)
                               / inject_Z divisor))%Q) ]
                      else [])
                   (items (collectSecondTextLayout fileSecond)))
              segs)
  /\ forall run : TextItemBox,
       1 <= Z.max 1 (end_ run - start run)
       /\ ~ (inject_Z (Z.max 1 (end_ run - start run)) == 0)%Q.
Proof.
  split.
  - destruct (annotate_page segs fileSecond) as (st & E & H).
    exists st. split; [exact E|]. intros k page Hk.
    destruct (H k page Hk) as (p & _ & _ & Hd).
    rewrite Hd. unfold rectsFor. rewrite map_flat_map.
    apply flat_map_ext. intro seg. rewrite map_flat_map.
    apply flat_map_ext. intro run. cbv zeta.
    unfold itemRects, overlapping, overlapEnd, overlapStart.
    rewrite (Z.ltb_antisym (Z.min (seg_end seg) (end_ run))
               (Z.max (seg_start seg) (start run))).
    destruct (negb (Z.min (seg_end seg) (end_ run)
                    <=? Z.max (seg_start seg) (start run))
              && Nat.eqb (pageIndex run) k); reflexivity.
  - intro run. split; [lia|].
    intro H0. unfold Qeq in H0. simpl in H0. lia.
Qed.

(** C4 at Scenario C: the run over 100..106, 60 wide from x = 50,
    against the segment 102..106 gets the one rectangle of the page, from
    x = 50 + 60 * 2/6 = 70 with width 60 * 4/6 = 40. *)
Lemma C4_rectangles_of_overlapping_pairs_witness :
  exists st page r,
    annotate [segC] scenarioCFile = Some st
    /\ nth_error (outDoc st) 0 = Some page
    /\ drawn page = [r]
    /\ (rect_x r == 70)%Q /\ (rect_width r == 40)%Q.
Proof.
  destruct (C4_rectangles_of_overlapping_pairs [segC] scenarioCFile)
    as [(st & E & H) _].
  vm_compute in E. injection E as <-.
  eexists. eexists. eexists.
  split; [reflexivity|]. split; [reflexivity|]. split; [reflexivity|].
  specialize (H 0%nat _ eq_refl). cbn [map drawn] in H.
  split; reflexivity.
Defined.

(** C3 amended. For a segment among those rendered and a run of the
    layout that overlap, the run stores the extractor's flip
    [y = max(0, pageHeight - (yTop + runHeight))] of its item's position,
    and the rectangle drawn for the pair on the run's output page has
    [y = max(0, pageHeight - (run.y + run.height))]: the renderer flips
    the stored value once more, so the flip is applied twice between
    extraction and drawing. *)
Theorem C3_rectangle_y_flips_the_stored_y
    (segs : list Segment) (file : PdfFile) (seg : Segment) (i : nat)
    (b : TextItemBox) (p : SrcPage) (it : TextItem) :
  In seg segs ->
  nth_error (items (collectSecondTextLayout file)) i = Some b ->
  nth_error (itemsWithPage file) i = Some (p, it) ->
  Z.min (seg_end seg) (end_ b) > Z.max (seg_start seg) (start b) ->
  let pageHeight := page_height p in
  let yTop := (ty it * (page_height p / viewport_height p))%Q in
  let runHeight := (hCanvas it * (page_height p / viewport_height p))%Q in
  y b = Qmax 0 (pageHeight - (yTop + runHeight))
  /\ height b = runHeight
  /\ exists st page r,
       annotate segs file = Some st
       /\ nth_error (outDoc st) (pageIndex b) = Some page
       /\ size_height page = pageHeight
       /\ In r (drawn page)
       /\ rect_x r
          = (x b
             + width b
               * (inject_Z (Z.max (seg_start seg) (start b) - start b)
                  / inject_Z (Z.max 1 (end_ b - start b))))%Q
       /\ rect_y r = Qmax 0 (pageHeight - (y b + height b))
       /\ rect_y r
          = Qmax 0
              (pageHeight
               - (Qmax 0 (pageHeight - (yTop + runHeight)) + runHeight)).
Proof.
  intros Hseg Hb Hit Hov. cbv zeta.
  pose proof (Forall2_nth_error _ _ _ (layout_geometry_of_items file)
                i b (p, it) Hb Hit) as G.
  unfold geometry_ok in G. cbn [fst snd] in G.
  destruct G as (Gp & Gx & Gy & Gw & Gh).
  split; [exact Gy|]. split; [exact Gh|].
  destruct (pair_rectangle_drawn segs file seg b Hseg
              (nth_error_In _ _ Hb) Hov)
    as (st & page & p' & E & Hpage & Hp' & Hh & Hin).
  assert (p' = p) by congruence. subst p'.
  exists st, page, (highlightRect seg b (page_height p)).
  split; [exact E|]. split; [exact Hpage|]. split; [exact Hh|].
  split; [exact Hin|]. unfold highlightRect. cbn [rect_x rect_y].
  split; [reflexivity|]. split; [reflexivity|].
  now rewrite Gy, Gh.
Qed.

(** C3 amended, at the one-item document of height 800: the item sits at
    y = 100 with height 10, the run stores y = 690, and the rectangle is
    drawn at y = 800 - (690 + 10) = 100. *)
Lemma C3_rectangle_y_flips_the_stored_y_witness :
  exists b st page r,
    nth_error (items (collectSecondTextLayout flipFile)) 0 = Some b
    /\ (y b == 690)%Q
    /\ annotate [flipSeg] flipFile = Some st
    /\ nth_error (outDoc st) (pageIndex b) = Some page
    /\ In r (drawn page)
    /\ rect_y r = Qmax 0 (800 - (y b + height b))
    /\ (rect_y r == 100)%Q.
Proof.
  eexists.
  destruct (C3_rectangle_y_flips_the_stored_y [flipSeg] flipFile flipSeg 0
              _ _ _ (or_introl eq_refl) eq_refl eq_refl eq_refl)
    as (_ & _ & st & page & r & E & Hpage & _ & Hin & _ & Hy & _).
  exists st, page, r.
  split; [reflexivity|]. split; [reflexivity|].
  split; [exact E|]. split; [exact Hpage|]. split; [exact Hin|].
  split; [exact Hy|]. rewrite Hy. reflexivity.
Defined.



(** ** The sanitizer and the encoding of the font *)

Lemma winAnsi_printable_ascii (ch : N) :
  (0x20 <= ch <= 0x7E)%N -> winAnsi ch = true.
Proof.
  intros [H1 H2]. unfold winAnsi.
  apply N.leb_le in H1. apply N.leb_le in H2. now rewrite H1, H2.
Qed.

Lemma winAnsi_false_not_ascii (ch : N) :
  winAnsi ch = false -> (0x20 <= ch)%N -> ch <> 0x7F%N -> (0x80 <= ch)%N.
Proof.
  intros H H1 H2.
  destruct (N.le_gt_cases 0x80 ch) as [G|G]; [exact G|].
  rewrite winAnsi_printable_ascii in H by lia. discriminate H.
Qed.

(** C9 (counter-example). E acute, U+00E9, is a character of the
    encoding, and the sanitizer replaces it by a question mark instead of
    passing it through; the emoticon U+1F600 is one code point that the
    encoding cannot represent, and the sanitizer puts two question marks
    for it instead of one. So the sanitizer is not the one described. *)
Lemma C9_sanitizer_not_as_described :
  (winAnsi 0xE9 = true
   /\ describedSanitizer [0xE9%N] = [0xE9%N]
   /\ sanitizeTextForWinAnsi (utf16 [0xE9%N]) = lit "?")
  /\ (is_code_point 0x1F600 = true
      /\ winAnsi 0x1F600 = false
      /\ describedSanitizer [0x1F600%N] = lit "?"
      /\ sanitizeTextForWinAnsi (utf16 [0x1F600%N]) = lit "??")
  /\ ~ (forall cps : list N,
          Forall (fun cp => is_code_point cp = true) cps ->
          sanitizeTextForWinAnsi (utf16 cps) = describedSanitizer cps).
Proof.
  split; [repeat split|]. split; [repeat split|].
  intro H. specialize (H [0xE9%N]).
  assert (F : Forall (fun cp => is_code_point cp = true) [0xE9%N])
    by (constructor; [reflexivity | constructor]).
  specialize (H F). vm_compute in H. discriminate H.
Qed.

(** C9 amended. The sanitizer works code unit by code unit and keeps the
    length of the text. A code unit from U+0080 to U+FFFF, whether the
    encoding has the character or not, is replaced by exactly one
    placeholder: a hyphen for the arrowhead U+27A2, a question mark for
    any other. In particular every character of the basic plane that the
    encoding cannot represent, control characters apart, gets its one
    placeholder. A printable ASCII character is passed through
    unchanged. Whatever stands in the result for a code unit that is not
    a control character is a character of the encoding. A code point
    beyond U+FFFF gives two question marks, one for each of its two code
    units. *)
Theorem C9_sanitize_by_code_unit (s : jsstring) :
  length (sanitizeTextForWinAnsi s) = length s
  /\ (forall i ch,
        nth_error s i = Some ch ->
        exists out,
          nth_error (sanitizeTextForWinAnsi s) i = Some out
          /\ ((0x80 <= ch <= 0xFFFF)%N ->
              out = if (ch =? 0x27A2)%N then 45%N else 63%N)
          /\ (winAnsi ch = false -> (0x20 <= ch <= 0xFFFF)%N ->
              ch <> 0x7F%N ->
              out = if (ch =? 0x27A2)%N then 45%N else 63%N)
          /\ ((0x20 <= ch <= 0x7E)%N -> out = ch)
          /\ ((0x20 <= ch <= 0xFFFF)%N -> ch <> 0x7F%N ->
              winAnsi out = true))
  /\ (forall cp,
        (0x10000 <= cp <= 0x10FFFF)%N ->
        sanitizeTextForWinAnsi (utf16 [cp]) = lit "??").
Proof.
  assert (Hin : forall ch, (0x80 <= ch <= 0xFFFF)%N ->
                  sanitized_code_unit ch
                  = if (ch =? 0x27A2)%N then 45%N else 63%N).
  { intros ch [H1 H2]. unfold sanitized_code_unit, in_class, placeholder.
    apply N.leb_le in H1. apply N.leb_le in H2. now rewrite H1, H2. }
  assert (Hout : forall ch, (ch < 0x80)%N -> sanitized_code_unit ch = ch).
  { intros ch H. unfold sanitized_code_unit, in_class.
    destruct (N.leb_spec 0x80 ch) as [G|_]; [lia | reflexivity]. }
  split; [|split].
  - rewrite sanitize_map. apply length_map.
  - intros i ch Hi. exists (sanitized_code_unit ch).
    split; [rewrite sanitize_map; now apply map_nth_error|].
    split; [apply Hin|].
    split.
    { intros Hw [H1 H2] H3. apply Hin. split; [|exact H2].
      now apply winAnsi_false_not_ascii. }
    split; [intros [H1 H2]; apply Hout; lia|].
    intros [H1 H2] H3.
    destruct (N.le_gt_cases 0x80 ch) as [G|G].
    + rewrite Hin by lia. now destruct (ch =? 0x27A2)%N.
    + rewrite Hout by exact G. apply winAnsi_printable_ascii. lia.
  - intros cp Hcp.
    destruct (surrogates_in_class cp Hcp) as (-> & Hhi & Hlo).
    rewrite sanitize_map. cbn [map].
    rewrite !Hin by lia.
    destruct (N.eqb_spec (0xD800 + (cp - 0x10000) / 0x400) 0x27A2) as [E|_];
      [lia|].
    destruct (N.eqb_spec (0xDC00 + (cp - 0x10000) mod 0x400) 0x27A2)
      as [E|_]; [lia|].
    reflexivity.
Qed.

(** C9 amended, at the text A, e acute, arrowhead, U+1F600: the result
    has the five code units A, question mark, hyphen and two question
    marks. *)
Lemma C9_sanitize_by_code_unit_witness :
  sanitizeTextForWinAnsi mixedText = lit "A?-??"
  /\ length (sanitizeTextForWinAnsi mixedText) = 5%nat
  /\ nth_error (sanitizeTextForWinAnsi mixedText) 1 = Some 63%N
  /\ nth_error (sanitizeTextForWinAnsi mixedText) 2 = Some 45%N
  /\ nth_error (sanitizeTextForWinAnsi mixedText) 0 = Some 0x41%N
  /\ sanitizeTextForWinAnsi (utf16 [0x1F600%N]) = lit "??".
Proof.
  destruct (C9_sanitize_by_code_unit mixedText) as (L & H & S).
  split; [reflexivity|]. split; [exact L|].
  destruct (H 1%nat 0xE9%N eq_refl) as (o1 & E1 & P1 & _).
  destruct (H 2%nat 0x27A2%N eq_refl) as (o2 & E2 & P2 & _).
  destruct (H 0%nat 0x41%N eq_refl) as (o0 & E0 & _ & _ & P0 & _).
  split; [rewrite E1, P1 by (split; discriminate); reflexivity|].
  split; [rewrite E2, P2 by (split; discriminate); reflexivity|].
  split; [rewrite E0, P0 by (split; discriminate); reflexivity|].
  apply S. split; discriminate.
Defined.
